(** * Batched molecular graphs for the Tox21 graph-convolution notebook

    Shallow embedding of
    [examples/notebooks/graph_convolutional_networks_for_tox21.ipynb]:
    the declared Keras [Input] layers, the hand-written minibatch generator
    [data_generator], and the prediction post-processing [reshape_y_pred],
    together with a model of the batched-graph assembly
    [ConvMol.agglomerate_mols] the generator calls. *)

From Stdlib Require Import QArith.
From stdpp Require Import base option list numbers strings.

(** ** The declared model inputs (notebook cell 5) *)

Module Inputs.

Inductive dtype := float32 | int32.

(** [Input(shape=..., dtype=...)]: the shape of one row, the batch axis is
    left free. *)
Record InputLayer := Input { shape : list nat; dtype_of : dtype }.

Definition atom_features : InputLayer := Input [75] float32.
Definition degree_slice : InputLayer := Input [2] int32.
Definition membership : InputLayer := Input [] int32.

(** [for i in range(0, 10 + 1): deg_adjs.append(Input(shape=(i+1,), dtype=tf.int32))] *)
Definition deg_adjs : list InputLayer :=
  (λ i, Input [i + 1] int32) <$> seq 0 (10 + 1).

(** [inputs = [atom_features, degree_slice, membership] + deg_adjs] (cell 7) *)
Definition inputs : list InputLayer :=
  [atom_features; degree_slice; membership] ++ deg_adjs.

End Inputs.

(** [batch_size = 50] (cell 6) *)
Definition batch_size : nat := 50.

(** Degree range of the batched representation. *)
Definition max_deg : nat := 10.
Definition min_deg : nat := 0.

(** [cumulative_sum_minus_last]: the start index of every block, given the
    block sizes. *)
Fixpoint cumulative_sum_minus_last_from (acc : nat) (l : list nat) : list nat :=
  match l with
  | [] => []
  | n :: l => acc :: cumulative_sum_minus_last_from (acc + n) l
  end.

Definition cumulative_sum_minus_last (l : list nat) : list nat :=
  cumulative_sum_minus_last_from 0 l.

(** [a.astype(np.int64)] on one entry of a float array: numpy's cast of a
    float to a 64-bit integer, which the arrays bring with them. *)
Class AsInt64 (float : Type) := astype_int64 : float → Z.

(** numpy's reading of an index [c] along an axis of size [n]: an index in
    [-n, 0) counts from the end of the axis, any other index outside [0, n)
    is an index error. *)
Definition numpy_index (n : nat) (c : Z) : option nat :=
  if decide (0 ≤ c < Z.of_nat n)%Z then Some (Z.to_nat c)
  else if decide (- Z.of_nat n ≤ c < 0)%Z then Some (Z.to_nat (c + Z.of_nat n))
  else None.

Section Model.

(** Entries of numpy float arrays (atom features, labels, sample weights,
    predicted probabilities) are carried around by the notebook; the one
    operation ever applied to an entry is the cast of a label to an integer
    inside [to_one_hot]. *)
Context {float : Type} `{!AsInt64 float}.

(** ** Molecule graphs and the batched molecular graph *)

(** Modelled from the spec: the per-molecule atom/bond graph ([ConvMol],
    declared in deepchem/feat/mol_graphs.py): a feature row per atom and, per
    atom, the molecule-local indices of its bonded neighbours. *)
Record ConvMol := mkConvMol {
  atom_features : list (list float);
  canon_adj_list : list (list nat);
}.

Definition get_num_atoms (m : ConvMol) : nat := length (atom_features m).

(** Modelled from the spec: the batched molecular graph of section 3
    ([MultiConvMol], declared in the same file): the concatenated feature
    rows, the adjacency lists grouped by degree, the degree slices and the
    membership vector. *)
Record MultiConvMol := mkMultiConvMol {
  get_atom_features : list (list float);
  get_deg_adjacency_lists : list (list (list nat));
  deg_slice : list (list nat);          (* one row [start; size] per degree *)
  membership : list nat;
}.

(** *** The steps of the assembly *)

(** An atom of the concatenated sequence, before bucketing. *)
Record Atom := mkAtom {
  at_key : nat;          (* offset of its molecule + molecule-local index *)
  at_mol : nat;          (* index of its molecule in the batch *)
  at_feat : list float;
  at_nbrs : list nat;    (* molecule-local neighbour indices *)
}.

Definition degree (a : Atom) : nat := length (at_nbrs a).

(** The atoms of molecule [k], whose first atom has index [off] in the
    concatenation. *)
Definition mol_atoms (k off : nat) (m : ConvMol) : option (list Atom) :=
  if decide (length (atom_features m) = length (canon_adj_list m))
  then Some (imap (λ a p, mkAtom (off + a) k p.1 p.2)
                  (zip (atom_features m) (canon_adj_list m)))
  else None.

(** Concatenation of the molecules, the offset growing by the size of each. *)
Fixpoint concat_mols (k off : nat) (mols : list ConvMol) : option (list Atom) :=
  match mols with
  | [] => Some []
  | m :: mols =>
      atoms ← mol_atoms k off m;
      rest ← concat_mols (S k) (off + get_num_atoms m) mols;
      Some (atoms ++ rest)
  end.

Definition mol_sizes (mols : list ConvMol) : list nat := get_num_atoms <$> mols.
Definition mol_offsets (mols : list ConvMol) : list nat :=
  cumulative_sum_minus_last (mol_sizes mols).

Definition degrees : list nat := seq min_deg (max_deg + 1 - min_deg).

(** The atoms of degree [d], in the order of the concatenation. *)
Definition bucket (cat : list Atom) (d : nat) : list Atom :=
  filter (λ a, degree a = d) cat.

Definition deg_sort (cat : list Atom) : list Atom := mjoin (bucket cat <$> degrees).

Definition deg_sizes (cat : list Atom) : list nat :=
  (λ d, length (bucket cat d)) <$> degrees.

(** Position, in the degree-sorted sequence, of the atom that had index [i]
    in the concatenated sequence. *)
Definition position (sorted : list Atom) (i : nat) : option nat :=
  fst <$> list_find (λ a, at_key a = i) sorted.

(** For every molecule, the batch positions of its atoms: its slice of
    [ordered], starting at the molecule's offset. *)
Definition mol_atom_map (mols : list ConvMol) (ordered : list nat) : list (list nat) :=
  zip_with (λ off n, take n (drop off ordered)) (mol_offsets mols) (mol_sizes mols).

(** The batch position of entry [i] of the concatenated sequence. *)
Definition batch_position (ordered : list nat) (i : nat) : nat :=
  default 0 (ordered !! i).

(** The adjacency row of an atom, every neighbour replaced by its batch
    position. *)
Definition remap_row (mol_atom_map : list (list nat)) (a : Atom) : option (list nat) :=
  map_k ← mol_atom_map !! at_mol a;
  mapM (λ j, map_k !! j) (at_nbrs a).

(** Modelled from the spec: [ConvMol.agglomerate_mols]
    (deepchem/feat/mol_graphs.py, not among the sources at hand), the
    batched-graph assembly of sections 3 and 4: concatenate the per-molecule
    feature matrices, compute the per-molecule offsets, bucket the atoms by
    degree, and remap every neighbour index from molecule-local to
    batch-global.  A lookup that numpy would reject (a neighbour index
    outside its molecule, an atom whose degree has no bucket, feature and
    adjacency tables of different lengths) makes the assembly fail. *)
Definition agglomerate_mols (mols : list ConvMol) : option MultiConvMol :=
  cat ← concat_mols 0 0 mols;
  let sorted := deg_sort cat in
  ordered ← mapM (position sorted) (seq 0 (length cat));
  let mol_atom_map := mol_atom_map mols ordered in
  let deg_sizes := deg_sizes cat in
  let deg_start := cumulative_sum_minus_last deg_sizes in
  deg_adj_lists ← mapM (λ d, mapM (remap_row mol_atom_map) (bucket cat d)) degrees;
  Some {| get_atom_features := at_feat <$> sorted;
          get_deg_adjacency_lists := deg_adj_lists;
          deg_slice := zip_with (λ start size, [start; size]) deg_start deg_sizes;
          membership := at_mol <$> sorted |}.

(** The data-model invariants of a batched graph [g] built from [mols]:
    the membership vector maps every atom of the batch to a molecule of
    the batch, every adjacency entry is an atom index of the batch, and the
    degree slices, one row [start; size] per degree, tile the atom index
    range. *)
Definition batched_graph_invariants (mols : list ConvMol) (g : MultiConvMol) : Prop :=
  let n_atoms := length (get_atom_features g) in
  n_atoms = sum_list (mol_sizes mols) ∧
  length (membership g) = n_atoms ∧
  (∀ p, p < n_atoms → ∃ k, membership g !! p = Some k ∧ k < length mols) ∧
  Forall (Forall (Forall (λ q, q < n_atoms))) (get_deg_adjacency_lists g) ∧
  length (deg_slice g) = S max_deg ∧
  (∀ d row, deg_slice g !! d = Some row →
     ∃ start size, row = [start; size] ∧ start + size ≤ n_atoms) ∧
  (∀ p, p < n_atoms →
     ∃ d start size, deg_slice g !! d = Some [start; size] ∧ start ≤ p < start + size ∧
       ∀ d' start' size', deg_slice g !! d' = Some [start'; size'] →
         start' ≤ p < start' + size' → d' = d).





(** ** Arrays handed to the model *)

Inductive ndarray :=
  | FloatMatrix (rows : list (list float))
  | IntMatrix (rows : list (list nat))
  | IntVector (v : list nat).


(** A list of model inputs: a feature matrix with 75 columns, a degree-slice
    matrix with 2 columns, a membership vector, and [n_adj] adjacency
    matrices. *)
Definition input_contract (n_adj : nat) (ins : list ndarray) : Prop :=
  ∃ X DS M adjs,
    ins = [FloatMatrix X; IntMatrix DS; IntVector M] ++ (IntMatrix <$> adjs) ∧
    Forall (λ r, length r = 75) X ∧
    Forall (λ r, length r = 2) DS ∧
    length adjs = n_adj.

(** One minibatch [(X_b, y_b, w_b, ids_b)]: the molecule graphs, the float
    matrices of labels and of weights (a row per sample), and the ids. *)
Record Batch := mkBatch {
  X_b : list ConvMol;
  y_b : list (list float);
  w_b : list (list float);
  ids_b : list string;
}.

(** The tuple [(inputs, labels, weights)] of one [yield]. *)
Record Yielded := mkYielded {
  inputs : list ndarray;
  labels : list (list (list (list nat)));
  weights : list (list (list float));
}.



(** Row [i] of [to_one_hot]: zeros, with a one at the index label [i] is cast
    to. *)
Definition one_hot_row (n_classes : nat) (v : float) : option (list nat) :=
  k ← numpy_index n_classes (astype_int64 v);
  Some (<[k := 1]> (replicate n_classes 0)).

(** Modelled from the spec: [deepchem.metrics.to_one_hot] (not among the
    sources at hand):
    [y_hot = np.zeros((n_samples, n_classes));
     y_hot[np.arange(n_samples), y.astype(np.int64)] = 1]. *)
Definition to_one_hot (y : list float) (n_classes : nat) : option (list (list nat)) :=
  mapM (one_hot_row n_classes) y.

(** [k] consecutive rows of width [n]. *)
Definition chunks {A} (k n : nat) (l : list A) : list (list A) :=
  reshape (replicate k n) l.

(** numpy's [a.reshape(-1, d1, d2)] of a matrix, in row-major order. *)
Definition reshape_3d {A} (a : list (list A)) (d1 d2 : nat)
  : option (list (list (list A))) :=
  let flat := mjoin a in
  let size := length flat in
  if decide (0 < d1 * d2 ∧ size `mod` (d1 * d2) = 0)
  then Some (chunks (size / (d1 * d2)) d1 (chunks (size / d2) d2 flat))
  else None.

(** ** The minibatch generator (notebook cell 8) *)

(** [inputs = [get_atom_features(), deg_slice, np.array(membership)]] followed
    by [for i in range(1, len(get_deg_adjacency_lists())): inputs.append(...[i])]. *)
Definition batch_inputs (multiConvMol : MultiConvMol) : list ndarray :=
  let inputs := [FloatMatrix (get_atom_features multiConvMol);
                 IntMatrix (deg_slice multiConvMol);
                 IntVector (membership multiConvMol)] in
  foldl (λ inputs i, inputs ++ [IntMatrix (get_deg_adjacency_lists multiConvMol !!! i)])
        inputs
        (seq 1 (length (get_deg_adjacency_lists multiConvMol) - 1)).

Section Generator.

(** [n_tasks = len(tox21_tasks)] (cell 3); the dataset and its batch iterator
    [dataset.iterbatches(batch_size, pad_batches, deterministic)] come from
    the library. *)
Context (n_tasks : nat).
Context {Dataset : Type}.
Context (iterbatches : Dataset → nat → bool → bool → list Batch).

(** [labels = [to_one_hot(y_b.flatten(), 2).reshape(-1, n_tasks, 2)]] *)
Definition batch_labels (y : list (list float)) : option (list (list (list (list nat)))) :=
  one_hot ← to_one_hot (mjoin y) 2;
  arr ← reshape_3d one_hot n_tasks 2;
  Some [arr].

(** The body of the inner loop, for one minibatch: [None] when a library
    call raises. *)
Definition process_batch (b : Batch) : option Yielded :=
  multiConvMol ← agglomerate_mols (X_b b);
  labels ← batch_labels (y_b b);
  Some (mkYielded (batch_inputs multiConvMol) labels [w_b b]).

(** A generator run from a given state of the dataset object: the values
    yielded, the dataset as the run leaves it, and the result ([None] when
    an exception ended the run). *)
Record GenResult (A : Type) := mkGenResult {
  yielded : list Yielded;
  dataset_after : Dataset;
  result : option A;
}.
Arguments mkGenResult {A}.
Arguments yielded {A}.
Arguments dataset_after {A}.
Arguments result {A}.

Definition Gen (A : Type) : Type := Dataset → GenResult A.

Definition gret {A} (a : A) : Gen A := λ ds, mkGenResult [] ds (Some a).

Definition gbind {A B} (m : Gen A) (f : A → Gen B) : Gen B :=
  λ ds,
    let r := m ds in
    match result r with
    | None => mkGenResult (yielded r) (dataset_after r) None
    | Some a =>
        let r' := f a (dataset_after r) in
        mkGenResult (yielded r ++ yielded r') (dataset_after r') (result r')
    end.

Definition yield (y : Yielded) : Gen unit := λ ds, mkGenResult [y] ds (Some tt).
Definition raise {A} : Gen A := λ ds, mkGenResult [] ds None.
Definition read_dataset : Gen Dataset := λ ds, mkGenResult [] ds (Some ds).
(** An assignment to the dataset object; the body of [data_generator] has
    none. *)
Definition write_dataset (ds' : Dataset) : Gen unit := λ _, mkGenResult [] ds' (Some tt).
Definition lift_option {A} (o : option A) : Gen A :=
  match o with Some a => gret a | None => raise end.

Fixpoint for_each {X} (xs : list X) (body : X → Gen unit) : Gen unit :=
  match xs with
  | [] => gret tt
  | x :: xs => gbind (body x) (λ _, for_each xs body)
  end.

Definition data_generator_body (epochs : nat) (predict pad_batches : bool) : Gen unit :=
  for_each (seq 0 epochs) (λ epoch,
    gbind read_dataset (λ dataset,
      for_each (imap pair (iterbatches dataset batch_size pad_batches true))
        (λ ind_b, gbind (lift_option (process_batch ind_b.2)) yield))).

(** [data_generator(dataset, epochs=1, predict=False, pad_batches=True)] *)
Definition data_generator (dataset : Dataset) (epochs : nat) (predict pad_batches : bool)
  : GenResult unit :=
  data_generator_body epochs predict pad_batches dataset.

(** All minibatches the nested loops visit, in order. *)
Definition all_batches (dataset : Dataset) (epochs : nat) (pad_batches : bool) : list Batch :=
  mjoin ((λ _, iterbatches dataset batch_size pad_batches true) <$> seq 0 epochs).

(** The yields and the result of processing a sequence of minibatches one
    after the other, up to the first that raises. *)
Fixpoint run_batches (bs : list Batch) : list Yielded * option unit :=
  match bs with
  | [] => ([], Some tt)
  | b :: bs =>
      match process_batch b with
      | None => ([], None)
      | Some y => let '(ys, r) := run_batches bs in (y :: ys, r)
      end
  end.

End Generator.

(** ** Prediction post-processing (notebook cell 10) *)

(** [n_samples = len(y_true); return y_pred[:n_samples, :, 1]].  The index 1
    is checked against the last axis of the array [y_pred], whichever rows
    the slice keeps. *)
Definition reshape_y_pred {A B} (y_true : list A) (y_pred : list (list (list B)))
  : option (list (list B)) :=
  let n_samples := length y_true in
  if decide (Forall (Forall (λ pair, 1 < length pair)) y_pred)
  then mapM (mapM (λ pair, pair !! 1)) (take n_samples y_pred)
  else None.

End Model.

Arguments mkGenResult {float Dataset A} yielded dataset_after result.
Arguments yielded {float Dataset A} g.
Arguments dataset_after {float Dataset A} g.
Arguments result {float Dataset A} g.

(** ** A small dataset *)

(** In the examples the float arrays hold integers, which the cast leaves as
    they are. *)
#[global] Instance Z_as_int64 : AsInt64 Z := id.

(** Rationals, cast by truncation toward zero. *)
#[global] Instance Q_as_int64 : AsInt64 Q := λ v, Z.quot (Qnum v) (Z.pos (Qden v)).

Definition ex_feat (v : Z) : list Z := replicate 75 v.

(** A chain of three atoms, a lone atom, and a triangle. *)
Definition ex_chain : @ConvMol Z :=
  mkConvMol [ex_feat 1; ex_feat 2; ex_feat 3] [[1]; [0; 2]; [1]].
Definition ex_single : @ConvMol Z := mkConvMol [ex_feat 4] [[]].
Definition ex_tri : @ConvMol Z :=
  mkConvMol [ex_feat 5; ex_feat 6; ex_feat 7] [[1; 2]; [0; 2]; [0; 1]].

Definition ex_mols : list (@ConvMol Z) := [ex_chain; ex_single; ex_tri].

(** The batched graph of [ex_mols]. *)
Definition ex_graph : @MultiConvMol Z :=
  {| get_atom_features :=
       [ex_feat 4; ex_feat 1; ex_feat 3; ex_feat 2; ex_feat 5; ex_feat 6; ex_feat 7];
     get_deg_adjacency_lists :=
       [[[]]; [[3]; [3]]; [[1; 2]; [5; 6]; [4; 6]; [4; 5]];
        []; []; []; []; []; []; []; []];
     deg_slice :=
       [[0; 1]; [1; 2]; [3; 4]; [7; 0]; [7; 0]; [7; 0]; [7; 0]; [7; 0]; [7; 0];
        [7; 0]; [7; 0]];
     membership := [1; 0; 0; 0; 2; 2; 2] |}.

(** Two tasks; a dataset of two minibatches, iterated as stored. *)
Definition ex_b1 : @Batch Z :=
  mkBatch [ex_chain; ex_single] [[0; 1]; [1; 1]]%Z [[1; 1]; [1; 0]]%Z ["m0"; "m1"]%string.
Definition ex_b2 : @Batch Z :=
  mkBatch [ex_tri] [[1; 0]]%Z [[1; 1]]%Z ["m2"]%string.
Definition ex_dataset : list (@Batch Z) := [ex_b1; ex_b2].
Definition ex_iterbatches (ds : list (@Batch Z)) (batch_size : nat)
    (pad_batches deterministic : bool) : list (@Batch Z) := ds.

(** An iterator that visits the minibatches in another order unless asked to
    be deterministic. *)
Definition ex_iterbatches_shuffling (ds : list (@Batch Z)) (batch_size : nat)
    (pad_batches deterministic : bool) : list (@Batch Z) :=
  if deterministic then ds else reverse ds.


(** What the generator yields for [ex_b2]. *)
Definition ex_yield2 : @Yielded Z :=
  {| inputs :=
       [FloatMatrix [ex_feat 5; ex_feat 6; ex_feat 7];
        IntMatrix [[0; 0]; [0; 0]; [0; 3]; [3; 0]; [3; 0]; [3; 0]; [3; 0]; [3; 0];
                   [3; 0]; [3; 0]; [3; 0]];
        IntVector [0; 0; 0];
        IntMatrix []; IntMatrix [[1; 2]; [0; 2]; [0; 1]]; IntMatrix []; IntMatrix [];
        IntMatrix []; IntMatrix []; IntMatrix []; IntMatrix []; IntMatrix [];
        IntMatrix []];
     labels := [[[[0; 1]; [1; 0]]]];
     weights := [[[1; 1]]]%Z |}.

(** A minibatch whose second label is no class index, and a dataset that
    holds it between two good ones. *)
Definition ex_bad : @Batch Z :=
  mkBatch [ex_single] [[0; 2]]%Z [[1; 1]]%Z ["m3"]%string.
Definition ex_dataset_bad : list (@Batch Z) := [ex_b1; ex_bad; ex_b2].

(** What the generator yields for [ex_b1]. *)
Definition ex_yield1 : @Yielded Z :=
  {| inputs :=
       [FloatMatrix [ex_feat 4; ex_feat 1; ex_feat 3; ex_feat 2];
        IntMatrix [[0; 1]; [1; 2]; [3; 1]; [4; 0]; [4; 0]; [4; 0]; [4; 0]; [4; 0];
                   [4; 0]; [4; 0]; [4; 0]];
        IntVector [1; 0; 0; 0];
        IntMatrix [[3]; [3]]; IntMatrix [[1; 2]]; IntMatrix []; IntMatrix [];
        IntMatrix []; IntMatrix []; IntMatrix []; IntMatrix []; IntMatrix [];
        IntMatrix []];
     labels := [[[[1; 0]; [0; 1]]; [[0; 1]; [0; 1]]]];
     weights := [[[1; 1]; [1; 0]]]%Z |}.

(** Predictions with a single row, and predictions holding an entry with a
    single value. *)
Definition ex_y_pred_one_row : list (list (list Z)) := [[[9; 1]; [2; 8]]]%Z.
Definition ex_y_pred_short_pair : list (list (list Z)) :=
  [[[9; 1]; [2; 8]]; [[3; 7]; [4]]]%Z.

(** Predictions for three samples (the last one padding), two tasks. *)
Definition ex_y_true : list (list nat) := [[0; 1]; [1; 1]].
Definition ex_y_pred : list (list (list Z)) :=
  [[[9; 1]; [2; 8]]; [[3; 7]; [4; 6]]; [[5; 5]; [5; 5]]]%Z.

(** * Properties *)

(** ** Block starts *)

Lemma length_cumulative_sum_minus_last_from acc l :
  length (cumulative_sum_minus_last_from acc l) = length l.
Proof. revert acc. induction l as [|n l IH]; intros acc; simpl; [done|]. by rewrite IH. Qed.

Lemma length_cumulative_sum_minus_last l :
  length (cumulative_sum_minus_last l) = length l.
Proof. apply length_cumulative_sum_minus_last_from. Qed.

Lemma lookup_cumulative_sum_minus_last_from acc l i :
  i < length l →
  cumulative_sum_minus_last_from acc l !! i = Some (acc + sum_list (take i l)).
Proof.
  revert acc i. induction l as [|n l IH]; intros acc i Hi; simpl in *; [lia|].
  destruct i as [|i]; simpl.
  - f_equal. lia.
  - rewrite IH by lia. f_equal. lia.
Qed.

Lemma lookup_cumulative_sum_minus_last l i :
  i < length l → cumulative_sum_minus_last l !! i = Some (sum_list (take i l)).
Proof.
  intros Hi. unfold cumulative_sum_minus_last.
  by rewrite lookup_cumulative_sum_minus_last_from.
Qed.

Lemma sum_list_take_le l i : sum_list (take i l) ≤ sum_list l.
Proof.
  revert i. induction l as [|n l IH]; intros [|i]; simpl; try lia.
  specialize (IH i). lia.
Qed.

Lemma sum_list_take_S l i n :
  l !! i = Some n → sum_list (take (S i) l) = sum_list (take i l) + n.
Proof.
  revert i. induction l as [|m l IH]; intros [|i] Hl; simplify_eq/=; [lia|].
  rewrite (IH i Hl). lia.
Qed.

Lemma sum_list_take_mono l i j :
  i ≤ j → sum_list (take i l) ≤ sum_list (take j l).
Proof.
  revert i j. induction l as [|n l IH]; intros [|i] [|j] Hij; simpl; try lia.
  specialize (IH i j). lia.
Qed.

Section Proofs.
Context {float : Type} `{!AsInt64 float}.
Implicit Types (m : @ConvMol float) (mols : list (@ConvMol float)).
Implicit Types (x : @Atom float) (cat : list (@Atom float)).
Implicit Types (g : @MultiConvMol float).

(** ** Concatenation of the molecules *)

Lemma mol_atoms_Some k off m atoms :
  mol_atoms k off m = Some atoms →
  length (atom_features m) = length (canon_adj_list m) ∧
  length atoms = get_num_atoms m ∧
  ∀ a x, atoms !! a = Some x ↔
    ∃ f ns, atom_features m !! a = Some f ∧ canon_adj_list m !! a = Some ns ∧
            x = mkAtom (off + a) k f ns.
Proof.
  unfold mol_atoms. case_decide as Hlen; [|done]. intros [= <-].
  split; [done|]. split.
  { rewrite length_imap, length_zip. unfold get_num_atoms. lia. }
  intros a x. rewrite list_lookup_imap_Some. split.
  - intros ([f ns] & Hz & ->). apply lookup_zip_with_Some in Hz as (f' & ns' & [= -> ->] & ? & ?).
    by exists f', ns'.
  - intros (f & ns & Hf & Hns & ->). exists (f, ns). split; [|done].
    apply lookup_zip_with_Some. by exists f, ns.
Qed.

Lemma concat_mols_length k off mols cat :
  concat_mols k off mols = Some cat → length cat = sum_list (mol_sizes mols).
Proof.
  revert k off cat. induction mols as [|m mols IH]; intros k off cat Hc; simplify_eq/=; [done|].
  destruct (mol_atoms k off m) as [atoms|] eqn:Ha; simplify_eq/=.
  destruct (concat_mols _ _ mols) as [rest|] eqn:Hr; simplify_eq/=.
  apply mol_atoms_Some in Ha as (_ & Hl & _). apply IH in Hr.
  rewrite length_app. lia.
Qed.

Lemma concat_mols_rows k off mols cat :
  concat_mols k off mols = Some cat →
  Forall (λ m, length (atom_features m) = length (canon_adj_list m)) mols.
Proof.
  revert k off cat. induction mols as [|m mols IH]; intros k off cat Hc; simplify_eq/=; [done|].
  destruct (mol_atoms k off m) as [atoms|] eqn:Ha; simplify_eq/=.
  destruct (concat_mols _ _ mols) as [rest|] eqn:Hr; simplify_eq/=.
  apply mol_atoms_Some in Ha as (? & _ & _). constructor; eauto.
Qed.

(** The atom at position [p] of the concatenation is atom [a] of molecule
    [i], where [p] is the offset of molecule [i] plus [a]. *)
Lemma concat_mols_lookup k off mols cat p x :
  concat_mols k off mols = Some cat →
  (cat !! p = Some x ↔
   ∃ i m a f ns, mols !! i = Some m ∧ atom_features m !! a = Some f ∧
     canon_adj_list m !! a = Some ns ∧
     p = sum_list (take i (mol_sizes mols)) + a ∧
     x = mkAtom (off + p) (k + i) f ns).
Proof.
  revert k off cat p. induction mols as [|m mols IH]; intros k off cat p Hc; simplify_eq/=.
  { split; [done|]. by intros (i & ? & ? & ? & ? & ? & _). }
  destruct (mol_atoms k off m) as [atoms|] eqn:Ha; simplify_eq/=.
  destruct (concat_mols _ _ mols) as [rest|] eqn:Hr; simplify_eq/=.
  apply mol_atoms_Some in Ha as (Hrows & Hl & Hat).
  specialize (IH _ _ _ (p - length atoms) Hr).
  destruct (decide (p < length atoms)) as [Hp|Hp].
  - rewrite lookup_app_l by done. rewrite Hat. split.
    + intros (f & ns & Hf & Hns & ->). exists 0, m, p, f, ns. simpl.
      repeat split; try done. f_equal; lia.
    + intros (i & m' & a & f & ns & Hi & Hf & Hns & -> & ->).
      destruct i as [|i]; simplify_eq/=.
      * exists f, ns. repeat split; try done. f_equal; lia.
      * apply lookup_lt_Some in Hf. unfold get_num_atoms in *. lia.
  - rewrite lookup_app_r by lia. rewrite IH. split.
    + intros (i & m' & a & f & ns & Hi & Hf & Hns & Hp' & ->).
      exists (S i), m', a, f, ns. simpl. repeat split; try done; [lia|].
      f_equal; lia.
    + intros (i & m' & a & f & ns & Hi & Hf & Hns & -> & ->).
      destruct i as [|i]; simplify_eq/=.
      * apply lookup_lt_Some in Hf. unfold get_num_atoms in *. lia.
      * exists i, m', a, f, ns. repeat split; try done; [lia|]. f_equal; lia.
Qed.

Lemma concat_mols_keys k off mols cat :
  concat_mols k off mols = Some cat → at_key <$> cat = seq off (length cat).
Proof.
  intros Hc. apply list_eq. intros p. rewrite list_lookup_fmap.
  destruct (cat !! p) as [x|] eqn:Hx; simpl.
  - pose proof (lookup_lt_Some _ _ _ Hx).
    apply (concat_mols_lookup _ _ _ _ _ _ Hc) in Hx as (i & m & a & f & ns & _ & _ & _ & _ & ->).
    simpl. by rewrite lookup_seq_lt.
  - apply lookup_ge_None in Hx. by rewrite lookup_seq_ge.
Qed.

(** ** Bucketing by degree *)

Lemma degrees_lookup d j : degrees !! j = Some d ↔ d = j ∧ j ≤ max_deg.
Proof. unfold degrees, min_deg, max_deg. rewrite lookup_seq. lia. Qed.

Lemma elem_of_degrees d : d ∈ degrees ↔ d ≤ max_deg.
Proof. unfold degrees, min_deg, max_deg. rewrite elem_of_seq. lia. Qed.

Lemma elem_of_deg_sort cat x : x ∈ deg_sort cat ↔ x ∈ cat ∧ degree x ≤ max_deg.
Proof.
  unfold deg_sort. rewrite list_elem_of_join. split.
  - intros (l & Hx & Hl). apply list_elem_of_fmap in Hl as (d & -> & Hd).
    apply list_elem_of_filter in Hx as [Hdeg Hx]. apply elem_of_degrees in Hd.
    split; [done|]. by rewrite Hdeg.
  - intros [Hx Hd]. exists (bucket cat (degree x)). split.
    + by apply list_elem_of_filter.
    + apply list_elem_of_fmap. exists (degree x). split; [done|]. by apply elem_of_degrees.
Qed.

(** Bucketing drops nothing but the atoms without a bucket, and duplicates
    nothing. *)
Lemma buckets_Permutation {A} (f : A → nat) (ds : list nat) (l : list A) :
  NoDup ds →
  mjoin ((λ d, filter (λ y, f y = d) l) <$> ds) ≡ₚ filter (λ y, f y ∈ ds) l.
Proof.
  intros Hnd. induction Hnd as [|d ds Hd Hnd IH]; simpl.
  - induction l as [|y l IHl]; [done|].
    rewrite filter_cons_False; [done|]. by intros ?%elem_of_nil.
  - rewrite IH. clear IH. induction l as [|y l IHl]; [done|].
    rewrite !filter_cons.
    destruct (decide (f y = d)) as [Heq|Hne], (decide (f y ∈ ds)) as [Hin|Hnin],
      (decide (f y ∈ d :: ds)) as [Hc|Hc]; simpl;
      rewrite ?elem_of_cons in Hc; try (exfalso; first [tauto | subst; tauto]).
    + by rewrite IHl.
    + by rewrite <- Permutation_middle, IHl.
    + done.
Qed.

Lemma deg_sort_Permutation cat :
  deg_sort cat ≡ₚ filter (λ x, degree x ∈ degrees) cat.
Proof. unfold deg_sort. apply (buckets_Permutation degree). apply NoDup_seq. Qed.

Lemma deg_sort_Permutation_all cat :
  Forall (λ x, degree x ≤ max_deg) cat → deg_sort cat ≡ₚ cat.
Proof.
  intros Hall. rewrite deg_sort_Permutation.
  induction Hall as [|x l Hx Hall IH]; [done|].
  rewrite filter_cons_True by (by apply elem_of_degrees). by rewrite IH.
Qed.

Lemma deg_sort_keys_NoDup cat :
  NoDup (at_key <$> cat) → NoDup (at_key <$> deg_sort cat).
Proof.
  intros Hnd. rewrite deg_sort_Permutation.
  eapply sublist_NoDup; [exact Hnd|]. apply fmap_sublist, sublist_filter.
Qed.

Lemma length_deg_sizes cat : length (deg_sizes cat) = S max_deg.
Proof. unfold deg_sizes. by rewrite length_fmap. Qed.

Lemma deg_sizes_lookup cat d :
  d ≤ max_deg → deg_sizes cat !! d = Some (length (bucket cat d)).
Proof.
  intros Hd. unfold deg_sizes. rewrite list_lookup_fmap.
  by rewrite (proj2 (degrees_lookup d d)).
Qed.

(** The atom at row [r] of bucket [d] sits at the start of the bucket's
    block plus [r] in the degree-sorted sequence. *)
Lemma deg_sort_lookup cat p x :
  deg_sort cat !! p = Some x ↔
  ∃ d r, d ≤ max_deg ∧ bucket cat d !! r = Some x ∧
         p = sum_list (take d (deg_sizes cat)) + r.
Proof.
  unfold deg_sort. rewrite join_lookup_Some.
  assert (Hsz : ∀ j, length <$> take j (bucket cat <$> degrees) = take j (deg_sizes cat)).
  { intros j. unfold deg_sizes. by rewrite fmap_take, <- list_fmap_compose. }
  split.
  - intros (j & l & r & Hl & Hx & ->). rewrite list_lookup_fmap in Hl.
    destruct (degrees !! j) as [d|] eqn:Hd; simplify_eq/=.
    apply degrees_lookup in Hd as [-> Hj]. exists j, r. by rewrite Hsz.
  - intros (d & r & Hd & Hx & ->). exists d, (bucket cat d), r.
    rewrite list_lookup_fmap, (proj2 (degrees_lookup d d)) by done.
    by rewrite Hsz.
Qed.

Lemma length_deg_sort cat : length (deg_sort cat) = sum_list (deg_sizes cat).
Proof.
  unfold deg_sort, deg_sizes. by rewrite length_join, <- list_fmap_compose.
Qed.

(** ** Positions in the degree-sorted sequence *)

Lemma position_Some sorted i p :
  position sorted i = Some p → ∃ x, sorted !! p = Some x ∧ at_key x = i.
Proof.
  unfold position. intros Hp.
  destruct (list_find _ sorted) as [[q x]|] eqn:Hf; simplify_eq/=.
  apply list_find_Some in Hf as (Hx & Hk & _). eauto.
Qed.

Lemma position_lookup sorted p x :
  NoDup (at_key <$> sorted) → sorted !! p = Some x → position sorted (at_key x) = Some p.
Proof.
  intros Hnd Hx. unfold position.
  destruct (list_find_elem_of (λ a, at_key a = at_key x) sorted x) as [[q y] Hf];
    [by eapply list_elem_of_lookup_2|done|].
  rewrite Hf. simpl. f_equal.
  apply list_find_Some in Hf as (Hy & Hk & _).
  eapply (NoDup_lookup _ q p (at_key x) Hnd); rewrite list_lookup_fmap.
  - by rewrite Hy, <- Hk.
  - by rewrite Hx.
Qed.

(** ** What a successful assembly computed *)

Lemma mapM_lookup {A B} (f : A → option B) (l : list A) (k : list B) i :
  mapM f l = Some k → k !! i = l !! i ≫= f.
Proof.
  intros Hm%mapM_Some_1. revert i.
  induction Hm as [|a b l k Hab Hm IH]; intros [|i]; simpl; auto.
Qed.

Lemma agglomerate_mols_Some mols g :
  agglomerate_mols mols = Some g →
  ∃ cat ordered,
    concat_mols 0 0 mols = Some cat ∧
    mapM (position (deg_sort cat)) (seq 0 (length cat)) = Some ordered ∧
    mapM (λ d, mapM (remap_row (mol_atom_map mols ordered)) (bucket cat d)) degrees
      = Some (get_deg_adjacency_lists g) ∧
    get_atom_features g = at_feat <$> deg_sort cat ∧
    deg_slice g = zip_with (λ start size, [start; size])
                    (cumulative_sum_minus_last (deg_sizes cat)) (deg_sizes cat) ∧
    membership g = at_mol <$> deg_sort cat.
Proof.
  unfold agglomerate_mols. intros Hg.
  apply bind_Some in Hg as (cat & Hcat & Hg).
  apply bind_Some in Hg as (ordered & Hord & Hg).
  apply bind_Some in Hg as (adj & Hadj & [= <-]).
  by exists cat, ordered.
Qed.

Section Assembled.
Context (mols : list (@ConvMol float)) (cat : list (@Atom float)) (ordered : list nat).
Hypothesis Hcat : concat_mols 0 0 mols = Some cat.
Hypothesis Hord : mapM (position (deg_sort cat)) (seq 0 (length cat)) = Some ordered.

Lemma ordered_length : length ordered = length cat.
Proof. apply length_mapM in Hord. by rewrite length_seq in Hord. Qed.

Lemma ordered_lookup i p :
  ordered !! i = Some p ↔ i < length cat ∧ position (deg_sort cat) i = Some p.
Proof.
  rewrite (mapM_lookup _ _ _ i Hord). split.
  - intros Hp. destruct (seq 0 (length cat) !! i) as [i'|] eqn:Hi; simplify_eq/=.
    apply lookup_seq in Hi as [-> ?]. done.
  - intros [Hi Hp]. by rewrite lookup_seq_lt.
Qed.

Lemma cat_key p x : cat !! p = Some x → at_key x = p.
Proof.
  intros Hx. apply (concat_mols_lookup _ _ _ _ _ _ Hcat) in Hx
    as (i & m & a & f & ns & _ & _ & _ & _ & ->). done.
Qed.

Lemma cat_keys_NoDup : NoDup (at_key <$> cat).
Proof. rewrite (concat_mols_keys _ _ _ _ Hcat). apply NoDup_seq. Qed.

(** Every atom found a bucket. *)
Lemma cat_degrees : Forall (λ x, degree x ≤ max_deg) cat.
Proof.
  apply Forall_lookup. intros p x Hx.
  destruct (ordered !! p) as [q|] eqn:Hq.
  - apply ordered_lookup in Hq as [_ Hq]. apply position_Some in Hq as (y & Hy & Hk).
    apply list_elem_of_lookup_2, elem_of_deg_sort in Hy as [Hy Hd].
    apply list_elem_of_lookup_1 in Hy as [p' Hy]. pose proof (cat_key _ _ Hy).
    by simplify_eq.
  - apply lookup_ge_None in Hq. rewrite ordered_length in Hq.
    apply lookup_lt_Some in Hx. lia.
Qed.

Lemma deg_sort_cat : deg_sort cat ≡ₚ cat.
Proof. apply deg_sort_Permutation_all, cat_degrees. Qed.

Lemma length_deg_sort_cat : length (deg_sort cat) = length cat.
Proof. by rewrite deg_sort_cat. Qed.

Lemma sorted_keys_NoDup : NoDup (at_key <$> deg_sort cat).
Proof. apply deg_sort_keys_NoDup, cat_keys_NoDup. Qed.

Lemma ordered_bound i p : ordered !! i = Some p → p < length (deg_sort cat).
Proof.
  intros [_ Hp]%ordered_lookup. apply position_Some in Hp as (x & Hx & _).
  by eapply lookup_lt_Some.
Qed.

(** The slice of [ordered] that belongs to molecule [k]. *)
Lemma mol_atom_map_lookup k map_k :
  mol_atom_map mols ordered !! k = Some map_k ↔
  ∃ m, mols !! k = Some m ∧
       map_k = take (get_num_atoms m) (drop (sum_list (take k (mol_sizes mols))) ordered).
Proof.
  unfold mol_atom_map, mol_offsets. rewrite lookup_zip_with_Some. split.
  - intros (off & n & -> & Hoff & Hn). unfold mol_sizes in Hn.
    rewrite list_lookup_fmap in Hn. destruct (mols !! k) as [m|] eqn:Hm; simplify_eq/=.
    exists m. split; [done|].
    rewrite lookup_cumulative_sum_minus_last in Hoff.
    + by simplify_eq.
    + unfold mol_sizes. rewrite length_fmap. by eapply lookup_lt_Some.
  - intros (m & Hm & ->). eexists _, _. split; [done|]. split.
    + apply lookup_cumulative_sum_minus_last. unfold mol_sizes. rewrite length_fmap.
      by eapply lookup_lt_Some.
    + unfold mol_sizes. by rewrite list_lookup_fmap, Hm.
Qed.

End Assembled.

(** ** Degree slices *)

Lemma block_unique (sizes : list nat) d d' n n' r r' :
  sizes !! d = Some n → sizes !! d' = Some n' → r < n → r' < n' →
  sum_list (take d sizes) + r = sum_list (take d' sizes) + r' →
  d = d' ∧ r = r'.
Proof.
  intros Hd Hd' Hr Hr' Heq.
  destruct (lt_eq_lt_dec d d') as [[Hlt | ->] | Hlt].
  - pose proof (sum_list_take_mono sizes (S d) d' Hlt).
    rewrite (sum_list_take_S _ _ _ Hd) in *. lia.
  - split; [done|lia].
  - pose proof (sum_list_take_mono sizes (S d') d Hlt).
    rewrite (sum_list_take_S _ _ _ Hd') in *. lia.
Qed.

Lemma deg_slice_lookup cat d row :
  zip_with (λ start size, [start; size])
    (cumulative_sum_minus_last (deg_sizes cat)) (deg_sizes cat) !! d = Some row ↔
  d ≤ max_deg ∧ row = [sum_list (take d (deg_sizes cat)); length (bucket cat d)].
Proof.
  rewrite lookup_zip_with_Some. split.
  - intros (start & size & -> & Hstart & Hsize).
    pose proof (lookup_lt_Some _ _ _ Hsize) as Hd. rewrite length_deg_sizes in Hd.
    rewrite lookup_cumulative_sum_minus_last in Hstart by (rewrite length_deg_sizes; lia).
    rewrite deg_sizes_lookup in Hsize by lia. simplify_eq. split; [lia|done].
  - intros [Hd ->]. eexists _, _. split; [done|]. split.
    + apply lookup_cumulative_sum_minus_last. rewrite length_deg_sizes. lia.
    + by apply deg_sizes_lookup.
Qed.

Lemma mapM_Some_Forall {A B} (f : A → option B) (l : list A) (k : list B) :
  mapM f l = Some k → Forall (λ y, ∃ a, a ∈ l ∧ f a = Some y) k.
Proof.
  intros Hm%mapM_Some_1. induction Hm as [|a b l k Hab Hm IH]; constructor.
  - exists a. split; [left|done].
  - eapply list.Forall_impl; [exact IH|]. intros y (a' & ? & ?). exists a'. split; [by right|done].
Qed.

(** The slices tile the index range of the degree-sorted sequence. *)
Lemma deg_slices_partition cat p :
  p < length (deg_sort cat) →
  ∃ d r, d ≤ max_deg ∧ r < length (bucket cat d) ∧
    p = sum_list (take d (deg_sizes cat)) + r ∧
    ∀ d', d' ≤ max_deg →
      sum_list (take d' (deg_sizes cat)) ≤ p
        < sum_list (take d' (deg_sizes cat)) + length (bucket cat d') → d' = d.
Proof.
  intros Hp. destruct (lookup_lt_is_Some_2 _ _ Hp) as [x Hx].
  apply deg_sort_lookup in Hx as (d & r & Hd & Hr & ->).
  exists d, r. pose proof (lookup_lt_Some _ _ _ Hr) as Hlt.
  repeat split; try done.
  intros d' Hd' Hin.
  destruct (block_unique (deg_sizes cat) d' d (length (bucket cat d')) (length (bucket cat d))
              (sum_list (take d (deg_sizes cat)) + r - sum_list (take d' (deg_sizes cat))) r)
    as [Heq _]; try done; try (by apply deg_sizes_lookup); lia.
Qed.

Lemma deg_slices_bound cat d :
  d ≤ max_deg →
  sum_list (take d (deg_sizes cat)) + length (bucket cat d) ≤ length (deg_sort cat).
Proof.
  intros Hd. rewrite length_deg_sort.
  rewrite <- (sum_list_take_S _ _ _ (deg_sizes_lookup cat d Hd)).
  apply sum_list_take_le.
Qed.

(** C1. For every batch the assembly accepts, the batched graph keeps the
    data-model invariants: the membership vector assigns to every atom of
    the batch one molecule of the batch; every entry of every degree-grouped
    adjacency list is an atom index of the batch; the degree slices, one
    [start; size] row per degree, tile the atom index range without gap or
    overlap. *)
Theorem agglomerate_mols_invariants mols g :
  agglomerate_mols mols = Some g → batched_graph_invariants mols g.
Proof.
  intros Hg. unfold batched_graph_invariants. cbv zeta.
  apply agglomerate_mols_Some in Hg as (cat & ordered & Hcat & Hord & Hadj & Hf & Hs & Hm).
  rewrite Hf, Hs, Hm, !length_fmap. clear Hf Hs Hm.
  pose proof (length_deg_sort_cat _ _ _ Hcat Hord) as Hlen.
  split; [|split; [|split; [|split; [|split; [|split]]]]].
  - rewrite Hlen. by eapply concat_mols_length.
  - done.
  - intros p Hp. destruct (lookup_lt_is_Some_2 _ _ Hp) as [x Hx].
    exists (at_mol x). rewrite list_lookup_fmap, Hx. split; [done|].
    apply list_elem_of_lookup_2, elem_of_deg_sort in Hx as [Hx _].
    apply list_elem_of_lookup_1 in Hx as [p' Hx].
    apply (concat_mols_lookup _ _ _ _ _ _ Hcat) in Hx
      as (i & m & a & f & ns & Hi & _ & _ & _ & ->).
    simpl. by eapply lookup_lt_Some.
  - eapply list.Forall_impl; [exact (mapM_Some_Forall _ _ _ Hadj)|].
    intros rows (d & _ & Hrows). simpl in Hrows.
    eapply list.Forall_impl; [exact (mapM_Some_Forall _ _ _ Hrows)|].
    intros row (x & _ & Hrow). simpl in Hrow. unfold remap_row in Hrow.
    apply bind_Some in Hrow as (map_k & Hk & Hrow).
    apply (mol_atom_map_lookup mols ordered) in Hk as (m & _ & ->).
    eapply list.Forall_impl; [exact (mapM_Some_Forall _ _ _ Hrow)|].
    intros q (j & _ & Hq). simpl in Hq.
    apply lookup_take_Some in Hq as [Hq _]. rewrite lookup_drop in Hq.
    by eapply ordered_bound.
  - rewrite length_zip_with, length_cumulative_sum_minus_last, length_deg_sizes.
    + lia.
  - intros d row [Hd ->]%deg_slice_lookup. eexists _, _. split; [done|].
    by apply deg_slices_bound.
  - intros p Hp. destruct (deg_slices_partition cat p Hp) as (d & r & Hd & Hr & -> & Huniq).
    exists d, (sum_list (take d (deg_sizes cat))), (length (bucket cat d)).
    split; [by apply deg_slice_lookup|]. split; [lia|].
    intros d' start' size' [Hd' [= -> ->]]%deg_slice_lookup Hin. by apply Huniq.
Qed.

(** ** The assembly as a transformation of the molecule graphs *)

Lemma concat_mols_features k off mols cat :
  concat_mols k off mols = Some cat → at_feat <$> cat = mjoin (atom_features <$> mols).
Proof.
  revert k off cat. induction mols as [|m mols IH]; intros k off cat Hc; simplify_eq/=; [done|].
  destruct (mol_atoms k off m) as [atoms|] eqn:Ha; simplify_eq/=.
  destruct (concat_mols _ _ mols) as [rest|] eqn:Hr; simplify_eq/=.
  rewrite fmap_app, (IH _ _ _ Hr). f_equal.
  apply mol_atoms_Some in Ha as (Hrows & Hl & Hat).
  apply list_eq. intros a. rewrite list_lookup_fmap.
  destruct (atoms !! a) as [x|] eqn:Hx; simpl.
  - apply Hat in Hx as (f & ns & Hf & _ & ->). done.
  - apply lookup_ge_None in Hx. symmetry. apply lookup_ge_None.
    unfold get_num_atoms in Hl. lia.
Qed.


Section Remap.
Context (mols : list (@ConvMol float)) (cat : list (@Atom float)) (ordered : list nat).
Hypothesis Hcat : concat_mols 0 0 mols = Some cat.
Hypothesis Hord : mapM (position (deg_sort cat)) (seq 0 (length cat)) = Some ordered.

Abbreviation σ := (batch_position ordered).

Lemma sorted_at_sigma i x :
  cat !! i = Some x → deg_sort cat !! σ i = Some x.
Proof.
  intros Hx. pose proof (lookup_lt_Some _ _ _ Hx) as Hi.
  destruct (ordered !! i) as [p|] eqn:Hp.
  - unfold batch_position. rewrite Hp. simpl.
    apply (ordered_lookup _ _ Hord) in Hp as [_ Hp].
    apply position_Some in Hp as (y & Hy & Hk). rewrite Hy. f_equal.
    pose proof Hy as Hy'.
    apply list_elem_of_lookup_2, elem_of_deg_sort in Hy' as [Hy' _].
    apply list_elem_of_lookup_1 in Hy' as [i' Hy'].
    pose proof (cat_key _ _ Hcat _ _ Hy'). by simplify_eq.
  - apply lookup_ge_None in Hp. rewrite (ordered_length _ _ Hord) in Hp. lia.
Qed.



End Remap.


(** ** Well-formed batches are accepted *)




(** ** Labels *)

Lemma numpy_index_lt n c k : numpy_index n c = Some k → k < n.
Proof. unfold numpy_index. repeat case_decide; intros [= <-]; lia. Qed.

Lemma numpy_index_is_Some n c :
  is_Some (numpy_index n c) ↔ (- Z.of_nat n ≤ c < Z.of_nat n)%Z.
Proof.
  unfold numpy_index. repeat case_decide; (split; [intros [k Hk]|intros Hc]);
    first [done | lia | by eexists].
Qed.

Lemma one_hot_row_length n (v : float) row : one_hot_row n v = Some row → length row = n.
Proof.
  unfold one_hot_row. intros (k & _ & [= <-])%bind_Some.
  by rewrite length_insert, length_replicate.
Qed.


Lemma one_hot_row_is_Some n (v : float) :
  is_Some (one_hot_row n v) ↔ (- Z.of_nat n ≤ astype_int64 v < Z.of_nat n)%Z.
Proof.
  rewrite <- numpy_index_is_Some. unfold one_hot_row.
  destruct (numpy_index n (astype_int64 v)) as [k|]; csimpl; split; intros [? ?]; by eauto.
Qed.

Lemma to_one_hot_Some (y : list float) n oh :
  to_one_hot y n = Some oh ↔ Forall2 (λ v row, one_hot_row n v = Some row) y oh.
Proof. apply mapM_Some. Qed.

Lemma length_join_uniform {A} n (ls : list (list A)) :
  Forall (λ l, length l = n) ls → length (mjoin ls) = length ls * n.
Proof. induction 1 as [|l ls Hl _ IH]; simpl; [done|]. rewrite length_app. lia. Qed.

Lemma chunks_join {A} n (ls : list (list A)) :
  Forall (λ l, length l = n) ls → chunks (length ls) n (mjoin ls) = ls.
Proof.
  unfold chunks. induction 1 as [|l ls Hl _ IH]; simpl; [done|].
  rewrite take_app_length', drop_app_length' by done. by rewrite IH.
Qed.



Lemma Forall2_reshape {A B} (R : A → B → Prop) szs l1 l2 :
  Forall2 R l1 l2 → Forall2 (Forall2 R) (reshape szs l1) (reshape szs l2).
Proof.
  revert l1 l2. induction szs as [|n szs IH]; intros l1 l2 HR; simpl; constructor.
  - by apply Forall2_take.
  - by apply IH, Forall2_drop.
Qed.

Lemma Forall2_mjoin {A B} (R : A → B → Prop) ls1 ls2 :
  Forall2 (Forall2 R) ls1 ls2 → Forall2 R (mjoin ls1) (mjoin ls2).
Proof. induction 1; simpl; [constructor|]. by apply Forall2_app. Qed.

(** [reshape(-1, n, 2)] of a matrix with two columns groups its rows [n] by
    [n], and raises unless they can be so grouped. *)
Lemma reshape_3d_pairs {A} (oh : list (list A)) n arr :
  Forall (λ r, length r = 2) oh →
  reshape_3d oh n 2 = Some arr ↔
  0 < n ∧ ∃ K, K * n = length oh ∧ arr = chunks K n oh.
Proof.
  intros Hrows. unfold reshape_3d. cbv zeta.
  rewrite (length_join_uniform 2 _ Hrows). set (N := length oh).
  rewrite (Nat.div_mul N 2) by lia.
  replace (chunks N 2 (mjoin oh)) with oh by (symmetry; by apply chunks_join).
  case_decide as Hd.
  - destruct Hd as [Hn Hmod]. apply Nat.Div0.div_exact in Hmod.
    set (K := N * 2 / (n * 2)) in *. split.
    + intros [= <-]. split; [lia|]. exists K. split; [nia|done].
    + intros (_ & K' & HK' & ->). do 2 f_equal. nia.
  - split; [done|]. intros (Hn & K & HK & _). exfalso. apply Hd. split; [lia|].
    replace (N * 2) with (K * (n * 2)) by nia. apply Nat.Div0.mod_mul.
Qed.

(** What the labels expression returns, whatever the shape of [y]. *)
Lemma batch_labels_spec n_tasks (y : list (list float)) ls :
  batch_labels n_tasks y = Some ls ↔
  0 < n_tasks ∧ ∃ oh K,
    Forall2 (λ v row, one_hot_row 2 v = Some row) (mjoin y) oh ∧
    K * n_tasks = length oh ∧ ls = [chunks K n_tasks oh].
Proof.
  unfold batch_labels. split.
  - intros (oh & Hoh%to_one_hot_Some & (arr & Harr & [= <-])%bind_Some)%bind_Some.
    apply reshape_3d_pairs in Harr as (Hn & K & HK & ->).
    + split; [done|]. by exists oh, K.
    + apply list.Forall_forall. intros row [i Hrow]%list_elem_of_lookup_1.
      destruct (Forall2_lookup_r _ _ _ _ _ Hoh Hrow) as (v & _ & Hv).
      by eapply one_hot_row_length.
  - intros (Hn & oh & K & Hoh & HK & ->).
    rewrite (proj2 (to_one_hot_Some _ _ _) Hoh). csimpl.
    assert (reshape_3d oh n_tasks 2 = Some (chunks K n_tasks oh)) as ->; [|done].
    apply reshape_3d_pairs; [|by eauto].
    apply list.Forall_forall. intros row [i Hrow]%list_elem_of_lookup_1.
    destruct (Forall2_lookup_r _ _ _ _ _ Hoh Hrow) as (v & _ & Hv).
    by eapply one_hot_row_length.
Qed.



(** With one column per task the samples are the rows of [y], label by
    label. *)
Lemma batch_labels_rows n_tasks (y : list (list float)) L :
  batch_labels n_tasks y = Some [L] →
  Forall (λ row, length row = n_tasks) y →
  Forall2 (Forall2 (λ v pair, one_hot_row 2 v = Some pair)) y L.
Proof.
  intros (Hn & oh & K & Hoh & HK & [= ->])%batch_labels_spec Hshape.
  assert (K = length y) as ->.
  { pose proof (Forall2_length _ _ _ Hoh) as Hlen.
    rewrite (length_join_uniform _ _ Hshape) in Hlen. nia. }
  rewrite <- (chunks_join n_tasks y Hshape) at 1.
  by apply Forall2_reshape.
Qed.

Lemma batch_labels_Some n_tasks (y : list (list float)) L :
  0 < n_tasks →
  Forall (λ row, length row = n_tasks) y →
  Forall2 (Forall2 (λ v pair, one_hot_row 2 v = Some pair)) y L →
  batch_labels n_tasks y = Some [L].
Proof.
  intros Hn Hshape HL. apply batch_labels_spec. split; [done|].
  assert (Hsamples : Forall (λ sample, length sample = n_tasks) L).
  { apply list.Forall_forall. intros sample [i Hs]%list_elem_of_lookup_1.
    destruct (Forall2_lookup_r _ _ _ _ _ HL Hs) as (row & Hrow & Hrs).
    rewrite <- (Forall2_length _ _ _ Hrs).
    rewrite list.Forall_forall in Hshape. apply Hshape. by eapply list_elem_of_lookup_2. }
  exists (mjoin L), (length L). split; [by apply Forall2_mjoin|].
  split; [by rewrite (length_join_uniform _ _ Hsamples)|].
  by rewrite (chunks_join _ _ Hsamples).
Qed.

(** ** The generator *)

Section GeneratorProofs.
Context (n_tasks : nat) {Dataset : Type}.
Context (iterbatches : Dataset → nat → bool → bool → list (@Batch float)).
Implicit Types (b : @Batch float) (bs : list (@Batch float)) (ds : Dataset).

Lemma run_batches_app bs1 bs2 :
  run_batches n_tasks (bs1 ++ bs2) =
  match (run_batches n_tasks bs1).2 with
  | None => run_batches n_tasks bs1
  | Some _ => ((run_batches n_tasks bs1).1 ++ (run_batches n_tasks bs2).1,
               (run_batches n_tasks bs2).2)
  end.
Proof.
  induction bs1 as [|b bs1 IH]; simpl.
  - by destruct (run_batches n_tasks bs2).
  - destruct (process_batch n_tasks b) as [y|]; [|done].
    rewrite IH. destruct (run_batches n_tasks bs1) as [ys [[]|]]; simpl; [|done].
    by destruct (run_batches n_tasks bs2).
Qed.

Lemma run_batches_lookup bs i y :
  (run_batches n_tasks bs).1 !! i = Some y →
  ∃ b, bs !! i = Some b ∧ process_batch n_tasks b = Some y.
Proof.
  revert i. induction bs as [|b bs IH]; intros i; simpl; [done|].
  destruct (process_batch n_tasks b) as [y'|] eqn:Hb; [|done].
  destruct (run_batches n_tasks bs) as [ys r]. destruct i as [|i]; simpl.
  - intros [= <-]. eauto.
  - intros Hy. destruct (IH i Hy) as (b' & ? & ?). eauto.
Qed.

(** The inner loop over an enumerated batch iterator. *)
Lemma inner_loop_run (ibs : list (nat * @Batch float)) ds :
  for_each ibs (λ ind_b, gbind (lift_option (process_batch n_tasks ind_b.2)) yield) ds =
  mkGenResult (run_batches n_tasks (snd <$> ibs)).1 ds (run_batches n_tasks (snd <$> ibs)).2.
Proof.
  induction ibs as [|[ind b] ibs IH]; csimpl; [done|].
  unfold gbind at 1. csimpl. unfold gbind at 1.
  destruct (process_batch n_tasks b) as [y|]; csimpl; [|done].
  rewrite IH. by destruct (run_batches n_tasks (snd <$> ibs)).
Qed.

Lemma snd_imap_pair {A} (l : list A) : snd <$> imap pair l = l.
Proof.
  apply list_eq. intros i. rewrite list_lookup_fmap, list_lookup_imap.
  by destruct (l !! i).
Qed.

Lemma epochs_loop_run pad ds (epochs_range : list nat) :
  for_each epochs_range (λ epoch,
    gbind read_dataset (λ dataset,
      for_each (imap pair (iterbatches dataset batch_size pad true))
        (λ ind_b, gbind (lift_option (process_batch n_tasks ind_b.2)) yield))) ds =
  let bs := mjoin ((λ _, iterbatches ds batch_size pad true) <$> epochs_range) in
  mkGenResult (run_batches n_tasks bs).1 ds (run_batches n_tasks bs).2.
Proof.
  induction epochs_range as [|epoch epochs_range IH]; simpl; [done|].
  unfold gbind at 1. unfold gbind at 1. simpl.
  rewrite inner_loop_run, snd_imap_pair. simpl.
  rewrite run_batches_app.
  destruct (run_batches n_tasks (iterbatches ds batch_size pad true)) as [ys [[]|]]; simpl; [|done].
  rewrite IH. simpl. done.
Qed.

(** The nested loops of [data_generator] process the minibatches of all
    epochs one after the other and never write the dataset. *)
Lemma data_generator_run ds epochs predict pad :
  data_generator n_tasks iterbatches ds epochs predict pad =
  mkGenResult (run_batches n_tasks (all_batches iterbatches ds epochs pad)).1 ds
              (run_batches n_tasks (all_batches iterbatches ds epochs pad)).2.
Proof. unfold data_generator, data_generator_body. by rewrite epochs_loop_run. Qed.


Lemma length_all_batches ds epochs pad :
  length (all_batches iterbatches ds epochs pad)
  = epochs * length (iterbatches ds batch_size pad true).
Proof.
  unfold all_batches. generalize 0. induction epochs as [|e IH]; intros s; simpl; [done|].
  by rewrite length_app, IH.
Qed.

(** C4. The [i]-th tuple yielded is computed from the [i]-th minibatch
    visited and from nothing else: its inputs are the arrays of the batched
    graph assembled from the molecules [X_b] of that minibatch. *)
Theorem data_generator_inputs_fresh ds epochs predict pad i y :
  yielded (data_generator n_tasks iterbatches ds epochs predict pad) !! i = Some y →
  ∃ b, all_batches iterbatches ds epochs pad !! i = Some b ∧
       process_batch n_tasks b = Some y ∧
       batch_inputs <$> agglomerate_mols (X_b b) = Some (inputs y).
Proof.
  rewrite data_generator_run. simpl. intros Hy.
  destruct (run_batches_lookup _ _ _ Hy) as (b & Hb & Hp).
  exists b. split; [done|]. split; [done|].
  unfold process_batch in Hp.
  destruct (agglomerate_mols (X_b b)) as [g|]; simplify_eq/=.
  destruct (batch_labels n_tasks (y_b b)); by simplify_eq/=.
Qed.





End GeneratorProofs.

(** C9. Two runs of the generator, in which the library's batch iterator may
    behave differently wherever it shuffles but returns the same minibatches
    when asked to be deterministic, yield the same tuples, end alike and
    leave the same dataset, whatever [predict] is in either run. *)
Theorem data_generator_deterministic (n_tasks : nat) {Dataset : Type}
    (iterbatches iterbatches' : Dataset → nat → bool → bool → list (@Batch float))
    ds epochs predict predict' pad :
  iterbatches ds batch_size pad true = iterbatches' ds batch_size pad true →
  data_generator n_tasks iterbatches ds epochs predict pad
  = data_generator n_tasks iterbatches' ds epochs predict' pad.
Proof.
  intros Hdet. rewrite !data_generator_run. unfold all_batches. by rewrite Hdet.
Qed.

(** ** The inputs fed to the model *)

Lemma batch_inputs_eq g :
  batch_inputs g =
  [FloatMatrix (get_atom_features g); IntMatrix (deg_slice g); IntVector (membership g)]
    ++ (IntMatrix <$> drop 1 (get_deg_adjacency_lists g)).
Proof.
  unfold batch_inputs. generalize (get_deg_adjacency_lists g). intros adj.
  assert (Hloop : ∀ n init, n ≤ length adj - 1 →
    foldl (λ inputs i, inputs ++ [@IntMatrix float (adj !!! i)]) init (seq 1 n)
    = init ++ (IntMatrix <$> take n (drop 1 adj))).
  { induction n as [|n IH]; intros init Hn.
    - simpl. by rewrite app_nil_r.
    - rewrite seq_S, foldl_app, IH by lia. simpl.
      destruct (lookup_lt_is_Some_2 adj (S n)) as [rows Hrows]; [lia|].
      rewrite (list_lookup_total_correct _ _ _ Hrows).
      rewrite (take_S_r _ _ rows) by (by rewrite lookup_drop).
      by rewrite fmap_app, <- app_assoc. }
  rewrite Hloop by done. do 2 f_equal. apply take_ge. rewrite length_drop. lia.
Qed.


(** ** Prediction post-processing *)

(** C8. For predictions with at least [len(y_true)] rows, [n_tasks]
    columns and at least two values per entry, [reshape_y_pred] returns
    the array of shape (len(y_true), n_tasks) whose entry (i, t) is
    [y_pred[i, t, 1]]. *)
Theorem reshape_y_pred_spec {A B} (y_true : list A) (y_pred : list (list (list B)))
    (n_tasks : nat) :
  length y_true ≤ length y_pred →
  Forall (λ row, length row = n_tasks ∧ Forall (λ pair, 2 ≤ length pair) row) y_pred →
  ∃ r, reshape_y_pred y_true y_pred = Some r ∧
       length r = length y_true ∧
       Forall (λ row, length row = n_tasks) r ∧
       ∀ i t, i < length y_true → t < n_tasks →
         is_Some (r !! i ≫= (λ row : list B, row !! t)) ∧
         r !! i ≫= (λ row : list B, row !! t)
         = (y_pred !! i ≫= (λ row : list (list B), row !! t))
             ≫= (λ pair : list B, pair !! 1).
Proof.
  intros Hlen Hshape. unfold reshape_y_pred. rewrite decide_True.
  2:{ eapply list.Forall_impl; [exact Hshape|]. intros row [_ Hp].
      eapply list.Forall_impl; [exact Hp|]. intros pair Hpair. simpl in *. lia. }
  assert (Hrow : ∀ row : list (list B), Forall (λ pair, 2 ≤ length pair) row →
            is_Some (mapM (λ pair, pair !! 1) row)).
  { intros row Hrow. apply mapM_is_Some_2.
    eapply list.Forall_impl; [exact Hrow|]. intros pair Hp. simpl in *.
    apply lookup_lt_is_Some_2. lia. }
  destruct (mapM (mapM (λ pair : list B, pair !! 1)) (take (length y_true) y_pred))
    as [r|] eqn:Hr.
  2:{ apply mapM_None_1, list.Exists_exists in Hr as (row & Hin & Hnone).
      apply elem_of_take in Hin as (i & Hin & _).
      rewrite Forall_lookup in Hshape. destruct (Hshape _ _ Hin) as [_ Hpairs].
      destruct (Hrow _ Hpairs) as [? ?]. congruence. }
  exists r. split; [done|].
  assert (Hlookup : ∀ i, i < length y_true →
            ∃ row row', y_pred !! i = Some row ∧ r !! i = Some row' ∧
                        mapM (λ pair, pair !! 1) row = Some row').
  { intros i Hi. destruct (lookup_lt_is_Some_2 y_pred i) as [row Hrowi]; [lia|].
    pose proof (mapM_lookup _ _ _ i Hr) as Hri.
    rewrite lookup_take_lt, Hrowi in Hri by done. simpl in Hri.
    rewrite Forall_lookup in Hshape. destruct (Hshape _ _ Hrowi) as [_ Hpairs].
    destruct (Hrow _ Hpairs) as [row' Hrow']. rewrite Hrow' in Hri. eauto. }
  split; [|split].
  - apply length_mapM in Hr. rewrite length_take in Hr. lia.
  - apply Forall_lookup. intros i row' Hrow'.
    pose proof (lookup_lt_Some _ _ _ Hrow') as Hi.
    pose proof (length_mapM _ _ _ Hr) as Hlr. rewrite length_take in Hlr.
    destruct (Hlookup i) as (row & row'' & Hrowi & Hri & Hm); [lia|].
    simplify_eq. apply length_mapM in Hm.
    rewrite Forall_lookup in Hshape. destruct (Hshape _ _ Hrowi) as [Hn _]. lia.
  - intros i t Hi Ht. destruct (Hlookup i Hi) as (row & row' & Hrowi & Hri & Hm).
    rewrite Hrowi, Hri. simpl. rewrite (mapM_lookup _ _ _ t Hm). split; [|done].
    rewrite Forall_lookup in Hshape. destruct (Hshape _ _ Hrowi) as [Hn Hpairs].
    destruct (lookup_lt_is_Some_2 row t) as [pair Hpair]; [lia|].
    rewrite Hpair. simpl. apply lookup_lt_is_Some_2.
    rewrite Forall_lookup in Hpairs. specialize (Hpairs _ _ Hpair). simpl in Hpairs. lia.
Qed.

End Proofs.

(** * The properties on the small dataset *)

Example ex_graph_assembled : agglomerate_mols ex_mols = Some ex_graph.
Proof. reflexivity. Qed.

(** A neighbour index outside its molecule is rejected. *)
Example ex_bad_neighbour :
  agglomerate_mols [ex_chain; mkConvMol [ex_feat 4] [[1]]] = None.
Proof. reflexivity. Qed.

(** A label cast to an index outside [-2, 2) is rejected. *)
Example ex_bad_label : batch_labels 2 [[0; 2]]%Z = None.
Proof. reflexivity. Qed.

Example ex_labels :
  batch_labels 2 [[0; 1]; [1; 1]]%Z = Some [[[[1; 0]; [0; 1]]; [[0; 1]; [0; 1]]]].
Proof. reflexivity. Qed.

(** A label that is no class index is cast and then read as numpy reads an
    index: 0.7 is encoded as class 0, -1.0 as class 1 and -0.5 as class 0;
    2.5 and -3.0 are index errors. *)
Example ex_labels_cast :
  to_one_hot [7 # 10; -1 # 1; -1 # 2; 1 # 1]%Q 2 = Some [[1; 0]; [0; 1]; [1; 0]; [0; 1]] ∧
  to_one_hot [5 # 2]%Q 2 = None ∧
  to_one_hot [-3 # 1]%Q 2 = None.
Proof. repeat split. Qed.

Lemma agglomerate_mols_invariants_witness :
  agglomerate_mols ex_mols = Some ex_graph ∧ batched_graph_invariants ex_mols ex_graph.
Proof.
  split; [reflexivity|].
  apply (agglomerate_mols_invariants ex_mols ex_graph). reflexivity.
Defined.


(** C2. The notebook declares 14 [Input] layers, 11 of them for adjacency
    lists, and says that each minibatch populates all of them; the tuple the
    generator yields for the minibatch [ex_b2] holds 13 arrays, 10 of them
    adjacency matrices (those of the degrees 1 to 10), so it is not a tuple
    with one adjacency matrix for each declared [deg_adj] layer. *)
Theorem data_generator_feeds_ten_adjacency_arrays :
  length Inputs.deg_adjs = 11 ∧
  length Inputs.inputs = 14 ∧
  yielded (data_generator 2 ex_iterbatches ex_dataset 1 false true) !! 1 = Some ex_yield2 ∧
  length (inputs ex_yield2) = 13 ∧
  input_contract 10 (inputs ex_yield2) ∧
  ¬ input_contract (length Inputs.deg_adjs) (inputs ex_yield2).
Proof.
  do 4 (split; [reflexivity|]). split.
  - eexists _, _, _, [_; _; _; _; _; _; _; _; _; _].
    split; [reflexivity|]. split; [|split; [|reflexivity]]; repeat constructor.
  - intros (X & DS & M & adjs & Heq & _ & _ & Hlen).
    apply (f_equal length) in Heq. rewrite length_app, length_fmap, Hlen in Heq.
    vm_compute in Heq. discriminate Heq.
Qed.

Lemma data_generator_inputs_fresh_witness :
  yielded (data_generator 2 ex_iterbatches ex_dataset 2 false true) !! 3 = Some ex_yield2 ∧
  ∃ b, all_batches ex_iterbatches ex_dataset 2 true !! 3 = Some b ∧
       process_batch 2 b = Some ex_yield2 ∧
       batch_inputs <$> agglomerate_mols (X_b b) = Some (inputs ex_yield2).
Proof.
  split; [reflexivity|].
  apply (data_generator_inputs_fresh 2 ex_iterbatches ex_dataset 2 false true 3 ex_yield2).
  reflexivity.
Defined.




Lemma data_generator_deterministic_witness :
  ex_iterbatches ex_dataset batch_size true true
  = ex_iterbatches_shuffling ex_dataset batch_size true true ∧
  data_generator 2 ex_iterbatches ex_dataset 2 false true
  = data_generator 2 ex_iterbatches_shuffling ex_dataset 2 true true.
Proof.
  split; [reflexivity|].
  exact (data_generator_deterministic 2 ex_iterbatches ex_iterbatches_shuffling
           ex_dataset 2 false true true eq_refl).
Defined.

(** The two iterators do differ where the dataset is shuffled. *)
Example ex_iterbatches_differ :
  ex_iterbatches ex_dataset batch_size true false
  ≠ ex_iterbatches_shuffling ex_dataset batch_size true false.
Proof. discriminate. Qed.

(** A generator that assigns to the dataset before running the loops
    iterates over what it assigned and leaves it behind. *)
Example ex_write_dataset :
  let r := gbind (write_dataset ex_dataset_bad)
                 (λ _, data_generator_body 2 ex_iterbatches 1 false true) ex_dataset in
  dataset_after r = ex_dataset_bad ∧ length (yielded r) = 1 ∧ result r = None.
Proof. repeat split. Qed.

Example data_generator_ex :
  let r := data_generator 2 ex_iterbatches ex_dataset 2 false true in
  result r = Some tt ∧ length (yielded r) = 4 ∧ dataset_after r = ex_dataset.
Proof. repeat split. Qed.

Lemma reshape_y_pred_spec_witness :
  length ex_y_true ≤ length ex_y_pred ∧
  Forall (λ row, length row = 2 ∧ Forall (λ pair, 2 ≤ length pair) row) ex_y_pred ∧
  ∃ r, reshape_y_pred ex_y_true ex_y_pred = Some r ∧
       length r = length ex_y_true ∧
       Forall (λ row, length row = 2) r ∧
       ∀ i t, i < length ex_y_true → t < 2 →
         is_Some (r !! i ≫= (λ row : list Z, row !! t)) ∧
         r !! i ≫= (λ row : list Z, row !! t)
         = (ex_y_pred !! i ≫= (λ row : list (list Z), row !! t))
             ≫= (λ pair : list Z, pair !! 1).
Proof.
  assert (H1 : length ex_y_true ≤ length ex_y_pred) by (simpl; lia).
  assert (H2 : Forall (λ row, length row = 2 ∧ Forall (λ pair : list Z, 2 ≤ length pair) row)
                 ex_y_pred) by (repeat constructor).
  split; [exact H1|]. split; [exact H2|].
  exact (reshape_y_pred_spec ex_y_true ex_y_pred 2 H1 H2).
Defined.

Example reshape_y_pred_ex :
  reshape_y_pred ex_y_true ex_y_pred = Some [[1; 8]; [7; 6]]%Z.
Proof. reflexivity. Qed.



(** * Further properties of the notebook's code *)

(** ** [reshape_y_pred] *)

(** X1. Padding rows of the predictions are dropped: when the predictions
    have a row for every sample, appending rows whose entries hold at least
    two values changes neither the result nor whether there is one. *)
Theorem reshape_y_pred_ignores_padding {A B} (y_true : list A)
    (y_pred padding : list (list (list B))) :
  length y_true ≤ length y_pred →
  Forall (Forall (λ pair, 1 < length pair)) padding →
  reshape_y_pred y_true (y_pred ++ padding) = reshape_y_pred y_true y_pred.
Proof.
  intros Hlen Hpad. unfold reshape_y_pred. rewrite take_app_le by done.
  destruct (decide (Forall (Forall (λ pair : list B, 1 < length pair)) y_pred)) as [Hp|Hp].
  - rewrite decide_True; [done|]. by apply Forall_app.
  - rewrite decide_False; [done|]. by intros [? _]%Forall_app.
Qed.

(** X2. With fewer prediction rows than samples, and at least two values
    in every entry of the predictions, nothing is raised: the slice is
    clamped, and the result has one row per prediction row, fewer than
    [len(y_true)]. *)
Theorem reshape_y_pred_too_few_rows {A B} (y_true : list A)
    (y_pred : list (list (list B))) :
  length y_pred < length y_true →
  Forall (Forall (λ pair, 2 ≤ length pair)) y_pred →
  ∃ r, reshape_y_pred y_true y_pred = Some r ∧
       length r = length y_pred ∧
       length r < length y_true ∧
       Forall2 (Forall2 (λ pair x, pair !! 1 = Some x)) y_pred r.
Proof.
  intros Hlen Hpairs. unfold reshape_y_pred. rewrite decide_True by done.
  rewrite take_ge by lia.
  destruct (mapM (mapM (λ pair : list B, pair !! 1)) y_pred) as [r|] eqn:Hr.
  - exists r. split; [done|]. pose proof (length_mapM _ _ _ Hr) as Hl.
    split; [lia|]. split; [lia|].
    apply mapM_Some_1 in Hr. eapply list.Forall2_impl; [exact Hr|].
    intros row row' Hrow. simpl in Hrow. by apply mapM_Some_1.
  - exfalso. apply mapM_None_1, list.Exists_exists in Hr as (row & Hin & Hnone).
    rewrite list.Forall_forall in Hpairs. specialize (Hpairs _ Hin).
    apply mapM_None_1, list.Exists_exists in Hnone as (pair & Hp & Hnone).
    rewrite list.Forall_forall in Hpairs. specialize (Hpairs _ Hp). simpl in *.
    apply lookup_ge_None in Hnone. lia.
Qed.

(** X3. An entry with fewer than two values in one of the first
    [len(y_true)] rows is an index error. *)
Theorem reshape_y_pred_short_pair {A B} (y_true : list A)
    (y_pred : list (list (list B))) i row pair :
  i < length y_true → y_pred !! i = Some row → pair ∈ row → length pair < 2 →
  reshape_y_pred y_true y_pred = None.
Proof.
  intros Hi Hrow Hpair Hshort. unfold reshape_y_pred. case_decide; [|done].
  apply mapM_None_2, list.Exists_exists. exists row. split.
  - apply elem_of_take. eauto.
  - apply mapM_None_2, list.Exists_exists. exists pair. split; [done|].
    simpl. apply lookup_ge_None. lia.
Qed.

(** ** Labels *)

Section LabelsMore.
Context {float : Type} `{!AsInt64 float}.

Lemma one_hot_row_class (v : float) pair :
  one_hot_row 2 v = Some pair →
  ∃ k, numpy_index 2 (astype_int64 v) = Some k ∧ pair !! 1 = Some k ∧ length pair = 2.
Proof.
  unfold one_hot_row. intros (k & Hk & [= <-])%bind_Some. exists k.
  split; [done|]. apply numpy_index_lt in Hk.
  destruct k as [|[|k]]; [done|done|lia].
Qed.

Lemma one_hot_rows_classes (row : list float) (pairs : list (list nat)) :
  Forall2 (λ v pair, one_hot_row 2 v = Some pair) row pairs →
  Forall (λ pair, 1 < length pair) pairs ∧
  ∃ ks, mapM (λ pair : list nat, pair !! 1) pairs = Some ks ∧
        Forall2 (λ v k, numpy_index 2 (astype_int64 v) = Some k) row ks.
Proof.
  induction 1 as [|v pair row pairs Hv _ (IHl & ks & IHm & IHk)].
  - split; [done|]. exists []. by split; [|constructor].
  - destruct (one_hot_row_class _ _ Hv) as (k & Hk & Hp & Hlen).
    split; [constructor; [lia|done]|].
    exists (k :: ks). split; [|by constructor].
    apply mapM_Some_2. constructor; [done|]. by apply mapM_Some_1.
Qed.

(** X4. Decoding the encoded labels: for a minibatch whose label array has
    [n_tasks] columns, the positive-class column that [reshape_y_pred]
    extracts from the one-hot labels array holds, for every sample and task,
    the class of the label: the integer the label is cast to, read as an
    index into the two classes. *)
Theorem labels_round_trip n_tasks (y : list (list float)) L :
  Forall (λ row, length row = n_tasks) y →
  batch_labels n_tasks y = Some [L] →
  ∃ classes,
    reshape_y_pred y L = Some classes ∧
    Forall2 (Forall2 (λ v k, numpy_index 2 (astype_int64 v) = Some k)) y classes.
Proof.
  intros Hshape Hl. pose proof (batch_labels_rows _ _ _ Hl Hshape) as Hrows.
  unfold reshape_y_pred. rewrite take_ge by (by rewrite (Forall2_length _ _ _ Hrows)).
  assert (Forall (Forall (λ pair : list nat, 1 < length pair)) L ∧
          ∃ classes,
            mapM (mapM (λ pair : list nat, pair !! 1)) L = Some classes ∧
            Forall2 (Forall2 (λ v k, numpy_index 2 (astype_int64 v) = Some k)) y classes)
    as (Hpairs & classes & Hm & Hclasses).
  { clear Hshape Hl.
    induction Hrows as [|row pairs y L Hrow _ (IHl & classes & IHm & IHc)].
    - split; [done|]. exists []. by split; [|constructor].
    - destruct (one_hot_rows_classes _ _ Hrow) as (Hlen & ks & Hks & Hcls).
      split; [by constructor|]. exists (ks :: classes). split; [|by constructor].
      apply mapM_Some_2. constructor; [done|]. by apply mapM_Some_1. }
  rewrite decide_True by done. eauto.
Qed.

(** X5. The labels of a minibatch are rejected exactly when a label is
    cast to an integer outside [-2, 2), when there is no task, or when the
    number of labels is not a multiple of [n_tasks]. *)
Theorem batch_labels_None n_tasks (y : list (list float)) :
  batch_labels n_tasks y = None ↔
  (∃ v, v ∈ mjoin y ∧ ¬ (-2 ≤ astype_int64 v < 2)%Z) ∨
  n_tasks = 0 ∨ length (mjoin y) `mod` n_tasks ≠ 0.
Proof.
  destruct (batch_labels n_tasks y) as [ls|] eqn:Hls.
  - split; [done|]. apply batch_labels_spec in Hls as (Hn & oh & K & Hoh & HK & _).
    intros [(v & [i Hv]%list_elem_of_lookup_1 & Hrange)|[Hz|Hm]]; exfalso; [|lia|].
    + destruct (Forall2_lookup_l _ _ _ _ _ Hoh Hv) as (row & _ & Hrow).
      apply Hrange. apply (one_hot_row_is_Some 2 v). by eexists.
    + apply Hm. rewrite (Forall2_length _ _ _ Hoh), <- HK. apply Nat.Div0.mod_mul.
  - split; [|done]. intros _.
    destruct (decide (n_tasks = 0)) as [?|Hnz]; [by right; left|].
    destruct (decide (length (mjoin y) `mod` n_tasks = 0)) as [Hm|?]; [|by right; right].
    left. destruct (mapM (one_hot_row 2) (mjoin y)) as [oh|] eqn:Hoh.
    + exfalso. apply mapM_Some in Hoh.
      assert (batch_labels n_tasks y
              = Some [chunks (length (mjoin y) / n_tasks) n_tasks oh]) as Hsome; [|congruence].
      apply batch_labels_spec. split; [lia|]. eexists oh, _. split; [done|]. split; [|done].
      rewrite <- (Forall2_length _ _ _ Hoh).
      apply Nat.Div0.div_exact in Hm. lia.
    + apply mapM_None_1, list.Exists_exists in Hoh as (v & Hv & Hnone).
      exists v. split; [done|]. intros Hrange.
      apply (one_hot_row_is_Some 2 v) in Hrange as [row Hrow]. congruence.
Qed.

End LabelsMore.

(** ** The generator *)

Section GeneratorMore.
Context {float : Type} `{!AsInt64 float} (n_tasks : nat) {Dataset : Type}.
Context (iterbatches : Dataset → nat → bool → bool → list (@Batch float)).
Implicit Types (b : @Batch float) (bs : list (@Batch float)) (ds : Dataset).

Lemma run_batches_first_failure bs i b :
  bs !! i = Some b → process_batch n_tasks b = None →
  (∀ j b', j < i → bs !! j = Some b' → is_Some (process_batch n_tasks b')) →
  (run_batches n_tasks bs).2 = None ∧
  Forall2 (λ b' y, process_batch n_tasks b' = Some y)
          (take i bs) (run_batches n_tasks bs).1.
Proof.
  revert i. induction bs as [|b0 bs IH]; intros i Hb Hnone Hbefore; [done|].
  destruct i as [|i]; simplify_eq/=.
  - rewrite Hnone. by split; [|constructor].
  - destruct (Hbefore 0 b0) as [y0 Hy0]; [lia|done|]. rewrite Hy0.
    destruct (IH i Hb Hnone) as [Hr Hm].
    { intros j b' Hj Hb'. apply (Hbefore (S j) b'); [lia|done]. }
    destruct (run_batches n_tasks bs) as [ys r]. simpl in *.
    split; [done|]. by constructor.
Qed.

Lemma run_batches_count bs :
  length (run_batches n_tasks bs).1 ≤ length bs ∧
  ((run_batches n_tasks bs).2 = Some tt ↔
   length (run_batches n_tasks bs).1 = length bs).
Proof.
  induction bs as [|b bs [IHle IHiff]]; simpl; [done|].
  destruct (process_batch n_tasks b) as [y|]; simpl.
  - destruct (run_batches n_tasks bs) as [ys r]. simpl in *. split; [lia|].
    rewrite IHiff. lia.
  - split; [lia|]. split; [done|lia].
Qed.

Lemma run_batches_epochs bs e :
  (run_batches n_tasks bs).2 = Some tt →
  run_batches n_tasks (mjoin (replicate e bs))
  = (mjoin (replicate e (run_batches n_tasks bs).1), Some tt).
Proof.
  intros Hok. induction e as [|e IH]; simpl; [done|].
  rewrite run_batches_app, Hok, IH. done.
Qed.

Lemma all_batches_replicate ds epochs pad :
  all_batches iterbatches ds epochs pad
  = mjoin (replicate epochs (iterbatches ds batch_size pad true)).
Proof.
  unfold all_batches. f_equal. generalize 0.
  induction epochs as [|e IH]; intros s; csimpl; [done|]. by rewrite IH.
Qed.

Lemma all_batches_one ds pad :
  all_batches iterbatches ds 1 pad = iterbatches ds batch_size pad true.
Proof. unfold all_batches. csimpl. by rewrite app_nil_r. Qed.

(** X6. An exception ends the generator at the first minibatch that is
    rejected: the tuples of the minibatches before it have been yielded, in
    order, and nothing else; the dataset is as it was. *)
Theorem data_generator_first_failure ds epochs predict pad i b :
  all_batches iterbatches ds epochs pad !! i = Some b →
  process_batch n_tasks b = None →
  (∀ j b', j < i → all_batches iterbatches ds epochs pad !! j = Some b' →
           is_Some (process_batch n_tasks b')) →
  let r := data_generator n_tasks iterbatches ds epochs predict pad in
  result r = None ∧
  length (yielded r) = i ∧
  mapM (process_batch n_tasks) (take i (all_batches iterbatches ds epochs pad))
    = Some (yielded r) ∧
  dataset_after r = ds.
Proof.
  intros Hb Hnone Hbefore r. subst r. rewrite data_generator_run. simpl.
  destruct (run_batches_first_failure _ _ _ Hb Hnone Hbefore) as [Hr Hm].
  apply mapM_Some_2 in Hm.
  split; [done|]. split; [|done].
  apply length_mapM in Hm. rewrite length_take in Hm.
  apply lookup_lt_Some in Hb. lia.
Qed.

(** X7. When one epoch runs without an exception, every epoch yields the
    same tuples in the same order: a run of [epochs] epochs yields the
    tuples of one epoch [epochs] times and ends normally. *)
Theorem data_generator_epochs ds epochs predict predict' pad :
  result (data_generator n_tasks iterbatches ds 1 predict pad) = Some tt →
  let one := yielded (data_generator n_tasks iterbatches ds 1 predict pad) in
  let r := data_generator n_tasks iterbatches ds epochs predict' pad in
  yielded r = mjoin (replicate epochs one) ∧
  result r = Some tt ∧
  length (yielded r) = epochs * length one.
Proof.
  rewrite !data_generator_run. simpl. rewrite all_batches_one, all_batches_replicate.
  intros Hok. rewrite (run_batches_epochs _ epochs Hok). simpl.
  split; [done|]. split; [done|].
  rewrite length_join, fmap_replicate, sum_list_replicate. lia.
Qed.

(** X8. The generator never yields more tuples than minibatches visited,
    and it ends without an exception exactly when it has yielded one tuple
    for each of them. *)
Theorem data_generator_count ds epochs predict pad :
  let r := data_generator n_tasks iterbatches ds epochs predict pad in
  let n := epochs * length (iterbatches ds batch_size pad true) in
  length (yielded r) ≤ n ∧ (result r = Some tt ↔ length (yielded r) = n).
Proof.
  intros r n. subst r n. rewrite data_generator_run. simpl.
  rewrite <- length_all_batches. apply run_batches_count.
Qed.

End GeneratorMore.

(** ** The inputs of one minibatch *)

Section InputsMore.
Context {float : Type} `{!AsInt64 float}.
Implicit Types (g : @MultiConvMol float).

(** X9. Whatever the number of adjacency lists of the batched graph, the
    inputs are the feature matrix, the degree slices and the membership
    vector followed by every adjacency list but the first: with no list or
    a single one there are just the three arrays, and the first list is
    never among the inputs. *)
Theorem batch_inputs_skips_first g :
  let adj := get_deg_adjacency_lists g in
  length (batch_inputs g) = 3 + (length adj - 1) ∧
  take 3 (batch_inputs g)
    = [FloatMatrix (get_atom_features g); IntMatrix (deg_slice g);
       IntVector (membership g)] ∧
  (∀ i, batch_inputs g !! (3 + i) = IntMatrix <$> adj !! S i) ∧
  (length adj ≤ 1 → length (batch_inputs g) = 3).
Proof.
  intros adj. subst adj. rewrite batch_inputs_eq.
  split; [|split; [|split]].
  - by rewrite length_app, length_fmap, length_drop.
  - done.
  - intros i. rewrite lookup_app_r by (simpl; lia).
    replace (3 + i - length [FloatMatrix (get_atom_features g); IntMatrix (deg_slice g);
                             IntVector (membership g)]) with i by (simpl; lia).
    by rewrite list_lookup_fmap, lookup_drop.
  - intros Hle. rewrite length_app, length_fmap, length_drop. simpl. lia.
Qed.


Section GeneratorInputs.
Context (n_tasks : nat) {Dataset : Type}.
Context (iterbatches : Dataset → nat → bool → bool → list (@Batch float)).


End GeneratorInputs.
End InputsMore.

(** ** The batched-graph assembly *)

Section AssemblyMore.
Context {float : Type}.
Implicit Types (m : @ConvMol float) (mols : list (@ConvMol float)).
Implicit Types (x : @Atom float) (cat : list (@Atom float)).
Implicit Types (g : @MultiConvMol float).

Lemma concat_mols_atom mols cat k m a :
  concat_mols 0 0 mols = Some cat → mols !! k = Some m → a < get_num_atoms m →
  ∃ x, cat !! (sum_list (take k (mol_sizes mols)) + a) = Some x ∧ at_mol x = k ∧
       atom_features m !! a = Some (at_feat x) ∧ canon_adj_list m !! a = Some (at_nbrs x).
Proof.
  intros Hcat Hk Ha.
  pose proof (concat_mols_rows _ _ _ _ Hcat) as Hrows.
  rewrite Forall_lookup in Hrows. specialize (Hrows _ _ Hk). unfold get_num_atoms in Ha.
  destruct (lookup_lt_is_Some_2 (atom_features m) a) as [f Hf]; [done|].
  destruct (lookup_lt_is_Some_2 (canon_adj_list m) a) as [ns Hns]; [lia|].
  eexists. split; [|split; [|split]].
  - apply (concat_mols_lookup _ _ _ _ _ _ Hcat). by exists k, m, a, f, ns.
  - done.
  - done.
  - done.
Qed.

Lemma concat_mols_membership k off mols cat :
  concat_mols k off mols = Some cat →
  at_mol <$> cat = mjoin (imap (λ i m, replicate (get_num_atoms m) (k + i)) mols).
Proof.
  revert k off cat. induction mols as [|m mols IH]; intros k off cat Hc; simplify_eq/=; [done|].
  destruct (mol_atoms k off m) as [atoms|] eqn:Ha; simplify_eq/=.
  destruct (concat_mols _ _ mols) as [rest|] eqn:Hr; simplify_eq/=.
  rewrite fmap_app, (IH _ _ _ Hr). f_equal.
  - apply mol_atoms_Some in Ha as (Hrows & Hl & Hat).
    apply list_eq. intros a. rewrite list_lookup_fmap.
    destruct (atoms !! a) as [x|] eqn:Hx; simpl.
    + pose proof (lookup_lt_Some _ _ _ Hx).
      apply Hat in Hx as (f & ns & _ & _ & ->). simpl.
      symmetry. apply lookup_replicate. split; [f_equal; lia|lia].
    + apply lookup_ge_None in Hx. symmetry. apply lookup_ge_None.
      rewrite length_replicate. lia.
  - f_equal. apply imap_ext. intros i m' _. simpl. f_equal. lia.
Qed.

(** X12. The degree slices and the adjacency lists of a batched graph
    agree: the list of degree [d] has as many rows as the slice of degree
    [d] has atoms, every row has [d] entries, and the rows of all lists
    together are as many as the atoms of the batch. *)
Theorem agglomerate_mols_slices_match mols g :
  agglomerate_mols mols = Some g →
  Forall2 (λ row rows, ∃ start, row = [start; length rows])
          (deg_slice g) (get_deg_adjacency_lists g) ∧
  (∀ d rows, get_deg_adjacency_lists g !! d = Some rows →
             Forall (λ r, length r = d) rows) ∧
  sum_list (length <$> get_deg_adjacency_lists g) = length (get_atom_features g).
Proof.
  intros Hg.
  apply agglomerate_mols_Some in Hg as (cat & ordered & Hcat & Hord & Hadj & Hf & Hs & Hm).
  assert (Hrows : ∀ d rows, get_deg_adjacency_lists g !! d = Some rows →
            d ≤ max_deg ∧ mapM (remap_row (mol_atom_map mols ordered)) (bucket cat d)
                           = Some rows).
  { intros d rows Hd. rewrite (mapM_lookup _ _ _ d Hadj) in Hd.
    destruct (degrees !! d) as [d'|] eqn:Hdd; simplify_eq/=.
    by apply degrees_lookup in Hdd as [-> ?]. }
  assert (Hlens : length <$> get_deg_adjacency_lists g = deg_sizes cat).
  { apply list_eq. intros d. rewrite list_lookup_fmap.
    destruct (get_deg_adjacency_lists g !! d) as [rows|] eqn:Hd; simpl.
    - destruct (Hrows _ _ Hd) as [Hle Hmap]. apply length_mapM in Hmap.
      rewrite deg_sizes_lookup by done. by rewrite Hmap.
    - apply lookup_ge_None in Hd. symmetry. apply lookup_ge_None.
      apply length_mapM in Hadj. rewrite length_deg_sizes.
      unfold degrees, min_deg, max_deg in Hadj. rewrite length_seq in Hadj.
      unfold max_deg. lia. }
  split; [|split].
  - rewrite Hs. apply Forall2_same_length_lookup. split.
    + rewrite length_zip_with, length_cumulative_sum_minus_last, length_deg_sizes.
      apply length_mapM in Hadj. unfold degrees, min_deg, max_deg in Hadj.
      rewrite length_seq in Hadj. unfold max_deg. lia.
    + intros d row rows [Hd ->]%deg_slice_lookup Hdr.
      destruct (Hrows _ _ Hdr) as [_ Hmap]. apply length_mapM in Hmap.
      eexists. by rewrite Hmap.
  - intros d rows Hd. destruct (Hrows _ _ Hd) as [_ Hmap].
    eapply list.Forall_impl; [exact (mapM_Some_Forall _ _ _ Hmap)|].
    intros row (x & [Hdeg _]%list_elem_of_filter & Hrow). simpl in Hrow.
    unfold remap_row in Hrow. apply bind_Some in Hrow as (map_k & _ & Hrow).
    apply length_mapM in Hrow. unfold degree in Hdeg. lia.
  - rewrite Hlens, Hf, length_fmap. symmetry. apply length_deg_sort.
Qed.

(** X13. Nothing is lost or duplicated: the feature rows of the batch
    are a permutation of the concatenated feature rows of the molecules,
    and the membership vector names molecule [k] once for every atom of
    molecule [k]. *)
Theorem agglomerate_mols_Permutation mols g :
  agglomerate_mols mols = Some g →
  get_atom_features g ≡ₚ mjoin (atom_features <$> mols) ∧
  membership g ≡ₚ mjoin (imap (λ k m, replicate (get_num_atoms m) k) mols).
Proof.
  intros Hg.
  apply agglomerate_mols_Some in Hg as (cat & ordered & Hcat & Hord & _ & Hf & _ & Hm).
  pose proof (deg_sort_cat _ _ _ Hcat Hord) as Hperm.
  rewrite Hf, Hm. split.
  - rewrite <- (concat_mols_features _ _ _ _ Hcat). by apply fmap_Permutation.
  - pose proof (concat_mols_membership _ _ _ _ Hcat) as Hmem. simpl in Hmem.
    rewrite <- Hmem. by apply fmap_Permutation.
Qed.

(** X14. Bonds stay inside molecules: every entry of the adjacency row
    of an atom is the index of an atom of the same molecule. *)
Theorem agglomerate_mols_bonds_within_molecule mols g d start size rows r row q :
  agglomerate_mols mols = Some g →
  deg_slice g !! d = Some [start; size] →
  get_deg_adjacency_lists g !! d = Some rows →
  rows !! r = Some row → q ∈ row →
  ∃ k, k < length mols ∧
       membership g !! (start + r) = Some k ∧ membership g !! q = Some k.
Proof.
  intros Hg Hslice Hd Hr Hq.
  apply agglomerate_mols_Some in Hg as (cat & ordered & Hcat & Hord & Hadj & Hf & Hs & Hm).
  rewrite Hs in Hslice. apply deg_slice_lookup in Hslice as [Hle [= -> ->]].
  rewrite (mapM_lookup _ _ _ d Hadj) in Hd.
  rewrite (proj2 (degrees_lookup d d)) in Hd by done. simpl in Hd.
  pose proof (mapM_lookup _ _ _ r Hd) as Hrow. rewrite Hr in Hrow.
  destruct (bucket cat d !! r) as [x|] eqn:Hx; simplify_eq/=.
  assert (Hsx : deg_sort cat !! (sum_list (take d (deg_sizes cat)) + r) = Some x).
  { apply deg_sort_lookup. by exists d, r. }
  pose proof Hx as Hin. apply list_elem_of_lookup_2, list_elem_of_filter in Hin as [_ Hin].
  apply list_elem_of_lookup_1 in Hin as [p Hp].
  pose proof Hp as Hp'.
  apply (concat_mols_lookup _ _ _ _ _ _ Hcat) in Hp'
    as (k & m & a & f & ns & Hk & Hfa & Hns & -> & ->). simpl in *.
  exists k. split; [by eapply lookup_lt_Some|].
  rewrite Hm, !list_lookup_fmap, Hsx. split; [done|].
  symmetry in Hrow. unfold remap_row in Hrow. simpl in Hrow.
  apply bind_Some in Hrow as (map_k & Hmk & Hrow).
  apply (mol_atom_map_lookup mols ordered) in Hmk as (m' & Hm' & ->).
  assert (m' = m) as -> by congruence. clear Hm'.
  apply mapM_Some_1 in Hrow. apply list_elem_of_lookup_1 in Hq as [i Hq].
  destruct (Forall2_lookup_r _ _ _ i q Hrow Hq) as (j & Hj & Hjq). simpl in Hjq.
  apply lookup_take_Some in Hjq as [Hjq Hlt]. rewrite lookup_drop in Hjq.
  destruct (concat_mols_atom _ _ k m j Hcat Hk Hlt) as (xj & Hxj & Hmolj & _).
  pose proof (sorted_at_sigma _ _ _ Hcat Hord _ _ Hxj) as Hsj.
  unfold batch_position in Hsj. rewrite Hjq in Hsj. simpl in Hsj.
  by rewrite Hsj, <- Hmolj.
Qed.

End AssemblyMore.

(** * The further properties on the small dataset *)

Lemma reshape_y_pred_ignores_padding_witness :
  length ex_y_true ≤ length (take 2 ex_y_pred) ∧
  Forall (Forall (λ pair : list Z, 1 < length pair)) (drop 2 ex_y_pred) ∧
  reshape_y_pred ex_y_true (take 2 ex_y_pred ++ drop 2 ex_y_pred)
  = reshape_y_pred ex_y_true (take 2 ex_y_pred).
Proof.
  assert (H1 : length ex_y_true ≤ length (take 2 ex_y_pred)) by (simpl; lia).
  assert (H2 : Forall (Forall (λ pair : list Z, 1 < length pair)) (drop 2 ex_y_pred))
    by (repeat constructor).
  split; [exact H1|]. split; [exact H2|].
  exact (reshape_y_pred_ignores_padding ex_y_true (take 2 ex_y_pred) (drop 2 ex_y_pred)
           H1 H2).
Defined.

Lemma reshape_y_pred_too_few_rows_witness :
  length ex_y_pred_one_row < length ex_y_true ∧
  Forall (Forall (λ pair : list Z, 2 ≤ length pair)) ex_y_pred_one_row ∧
  ∃ r, reshape_y_pred ex_y_true ex_y_pred_one_row = Some r ∧
       length r = length ex_y_pred_one_row ∧
       length r < length ex_y_true ∧
       Forall2 (Forall2 (λ pair x, pair !! 1 = Some x)) ex_y_pred_one_row r.
Proof.
  assert (H1 : length ex_y_pred_one_row < length ex_y_true) by (simpl; lia).
  assert (H2 : Forall (Forall (λ pair : list Z, 2 ≤ length pair)) ex_y_pred_one_row)
    by (repeat constructor).
  split; [exact H1|]. split; [exact H2|].
  exact (reshape_y_pred_too_few_rows ex_y_true ex_y_pred_one_row H1 H2).
Defined.

Lemma reshape_y_pred_short_pair_witness :
  1 < length ex_y_true ∧
  ex_y_pred_short_pair !! 1 = Some [[3; 7]; [4]]%Z ∧
  ([4]%Z : list Z) ∈ ([[3; 7]; [4]]%Z : list (list Z)) ∧
  length ([4]%Z : list Z) < 2 ∧
  reshape_y_pred ex_y_true ex_y_pred_short_pair = None.
Proof.
  assert (H1 : 1 < length ex_y_true) by (simpl; lia).
  assert (H2 : ex_y_pred_short_pair !! 1 = Some [[3; 7]; [4]]%Z) by reflexivity.
  assert (H3 : ([4]%Z : list Z) ∈ ([[3; 7]; [4]]%Z : list (list Z)))
    by (apply (list_elem_of_lookup_2 _ 1); reflexivity).
  assert (H4 : length ([4]%Z : list Z) < 2) by (simpl; lia).
  split; [exact H1|]. split; [exact H2|]. split; [exact H3|]. split; [exact H4|].
  exact (reshape_y_pred_short_pair ex_y_true ex_y_pred_short_pair 1 _ _ H1 H2 H3 H4).
Defined.

Lemma labels_round_trip_witness :
  Forall (λ row, length row = 2) (y_b ex_b1) ∧
  batch_labels 2 (y_b ex_b1) = Some [[[[1; 0]; [0; 1]]; [[0; 1]; [0; 1]]]] ∧
  ∃ classes,
    reshape_y_pred (y_b ex_b1) [[[1; 0]; [0; 1]]; [[0; 1]; [0; 1]]] = Some classes ∧
    Forall2 (Forall2 (λ v k, numpy_index 2 (astype_int64 v) = Some k)) (y_b ex_b1) classes.
Proof.
  assert (H1 : Forall (λ row, length row = 2) (y_b ex_b1)) by (repeat constructor).
  assert (H2 : batch_labels 2 (y_b ex_b1) = Some [[[[1; 0]; [0; 1]]; [[0; 1]; [0; 1]]]])
    by reflexivity.
  split; [exact H1|]. split; [exact H2|].
  exact (labels_round_trip 2 (y_b ex_b1) _ H1 H2).
Defined.

Lemma data_generator_first_failure_witness :
  all_batches ex_iterbatches ex_dataset_bad 1 true !! 1 = Some ex_bad ∧
  process_batch 2 ex_bad = None ∧
  (∀ j b', j < 1 → all_batches ex_iterbatches ex_dataset_bad 1 true !! j = Some b' →
           is_Some (process_batch 2 b')) ∧
  let r := data_generator 2 ex_iterbatches ex_dataset_bad 1 false true in
  result r = None ∧
  length (yielded r) = 1 ∧
  mapM (process_batch 2) (take 1 (all_batches ex_iterbatches ex_dataset_bad 1 true))
    = Some (yielded r) ∧
  dataset_after r = ex_dataset_bad.
Proof.
  assert (H1 : all_batches ex_iterbatches ex_dataset_bad 1 true !! 1 = Some ex_bad)
    by reflexivity.
  assert (H2 : process_batch 2 ex_bad = None) by reflexivity.
  assert (H3 : ∀ j b', j < 1 →
             all_batches ex_iterbatches ex_dataset_bad 1 true !! j = Some b' →
             is_Some (process_batch 2 b')).
  { intros j b' Hj Hb. destruct j as [|j]; [|lia].
    injection Hb as <-. exists ex_yield1. reflexivity. }
  split; [exact H1|]. split; [exact H2|]. split; [exact H3|].
  exact (data_generator_first_failure 2 ex_iterbatches ex_dataset_bad 1 false true 1 ex_bad
           H1 H2 H3).
Defined.

Lemma data_generator_epochs_witness :
  result (data_generator 2 ex_iterbatches ex_dataset 1 false true) = Some tt ∧
  let one := yielded (data_generator 2 ex_iterbatches ex_dataset 1 false true) in
  let r := data_generator 2 ex_iterbatches ex_dataset 3 true true in
  yielded r = mjoin (replicate 3 one) ∧
  result r = Some tt ∧
  length (yielded r) = 3 * length one.
Proof.
  assert (H : result (data_generator 2 ex_iterbatches ex_dataset 1 false true) = Some tt)
    by reflexivity.
  split; [exact H|].
  exact (data_generator_epochs 2 ex_iterbatches ex_dataset 3 false true true H).
Defined.



Lemma agglomerate_mols_slices_match_witness :
  agglomerate_mols ex_mols = Some ex_graph ∧
  Forall2 (λ row rows, ∃ start, row = [start; length rows])
          (deg_slice ex_graph) (get_deg_adjacency_lists ex_graph) ∧
  (∀ d rows, get_deg_adjacency_lists ex_graph !! d = Some rows →
             Forall (λ r, length r = d) rows) ∧
  sum_list (length <$> get_deg_adjacency_lists ex_graph)
  = length (get_atom_features ex_graph).
Proof.
  split; [reflexivity|].
  exact (agglomerate_mols_slices_match ex_mols ex_graph eq_refl).
Defined.

Lemma agglomerate_mols_Permutation_witness :
  agglomerate_mols ex_mols = Some ex_graph ∧
  get_atom_features ex_graph ≡ₚ mjoin (atom_features <$> ex_mols) ∧
  membership ex_graph ≡ₚ mjoin (imap (λ k m, replicate (get_num_atoms m) k) ex_mols).
Proof.
  split; [reflexivity|].
  exact (agglomerate_mols_Permutation ex_mols ex_graph eq_refl).
Defined.

Lemma agglomerate_mols_bonds_within_molecule_witness :
  agglomerate_mols ex_mols = Some ex_graph ∧
  deg_slice ex_graph !! 2 = Some [3; 4] ∧
  get_deg_adjacency_lists ex_graph !! 2 = Some [[1; 2]; [5; 6]; [4; 6]; [4; 5]] ∧
  [[1; 2]; [5; 6]; [4; 6]; [4; 5]] !! 1 = Some [5; 6] ∧
  6 ∈ [5; 6] ∧
  ∃ k, k < length ex_mols ∧
       membership ex_graph !! (3 + 1) = Some k ∧ membership ex_graph !! 6 = Some k.
Proof.
  assert (H : 6 ∈ [5; 6]) by (apply (list_elem_of_lookup_2 _ 1); reflexivity).
  split; [reflexivity|]. split; [reflexivity|]. split; [reflexivity|].
  split; [reflexivity|]. split; [exact H|].
  exact (agglomerate_mols_bonds_within_molecule ex_mols ex_graph 2 3 4
           [[1; 2]; [5; 6]; [4; 6]; [4; 5]] 1 [5; 6] 6
           eq_refl eq_refl eq_refl eq_refl H).
Defined.
